(** * Recurrent Hessian-free network: forward pass, BPTT gradient and
    Gauss-Newton product of [hessianfree/hessianrnn.py]

    The numeric type of the arrays is kept abstract (class [Scalar]): the
    structural results below use no law of arithmetic at all, and the few
    algebraic ones name the laws they need.  Arrays are nested lists laid out
    as the source indexes them: a parameter vector is a flat list, a
    [batch, unit] slice is a list of rows, an activation array is
    [batch][timestep][unit]. *)

From Stdlib Require Import String.
From Stdlib Require Import List Arith ZArith Lia Bool.
From Stdlib Require Import QArith Qcanon.
Import ListNotations.

Local Open Scope nat_scope.

(** ** Scalars *)

Class Scalar (num : Type) : Type := {
  nzero : num;
  nadd : num -> num -> num;
  nmul : num -> num -> num;
  (* [x / n] for an integer batch size [n] *)
  ndiv : num -> nat -> num
}.

(** The laws of exact arithmetic that the damping results rely on. *)
Class ScalarLaws (num : Type) `{Scalar num} : Prop := {
  nadd_0_r : forall x : num, nadd x nzero = x;
  nmul_0_l : forall x : num, nmul nzero x = nzero;
  nmul_0_r : forall x : num, nmul x nzero = nzero
}.

(** ** Generic list helpers *)

Section Lists.
Context {A B C : Type}.

(* [a op b] on two arrays of the same shape *)
Fixpoint zip_with (f : A -> B -> C) (a : list A) (b : list B) : list C :=
  match a, b with
  | x :: a', y :: b' => f x y :: zip_with f a' b'
  | _, _ => []
  end.

(* [a op= b]: the left operand is updated in place and keeps its shape *)
Fixpoint zip_ip (f : A -> B -> A) (a : list A) (b : list B) : list A :=
  match a with
  | [] => []
  | x :: a' =>
      match b with
      | [] => a
      | y :: b' => f x y :: zip_ip f a' b'
      end
  end.

(* [l[i] = x]; nothing is written when [i] is out of range *)
Fixpoint upd (l : list A) (i : nat) (x : A) : list A :=
  match l, i with
  | [], _ => []
  | _ :: l', O => x :: l'
  | y :: l', S i' => y :: upd l' i' x
  end.
End Lists.

(** Python's index normalisation: a negative index counts from the end. *)
Definition py_index (len : nat) (i : Z) : option nat :=
  if (0 <=? i)%Z then
    if (i <? Z.of_nat len)%Z then Some (Z.to_nat i) else None
  else if (0 <=? i + Z.of_nat len)%Z then Some (Z.to_nat (i + Z.of_nat len))
  else None.

(** Exceptions the modelled methods raise. *)
Inductive exn : Type :=
| ValueError (msg : string)
| AssertionError
| IndexError
| BaseError (code : nat).   (* anything raised inside the base class *)

(** ** The offset table

    [self.offsets] is a dict from a connection [(pre, post)] to the three cut
    points [(offset, W_end, b_end)] of its block in the parameter vector. *)

Definition conn : Type := nat * nat.
Definition cuts : Type := nat * nat * nat.
Definition dict : Type := list (conn * cuts).

Definition conn_eqb (a b : conn) : bool :=
  (fst a =? fst b) && (snd a =? snd b).

Fixpoint dict_get (d : dict) (k : conn) : option cuts :=
  match d with
  | [] => None
  | (k', v) :: d' => if conn_eqb k k' then Some v else dict_get d' k
  end.

(* d[k] = v *)
Fixpoint dict_set (d : dict) (k : conn) (v : cuts) : dict :=
  match d with
  | [] => [(k, v)]
  | (k', v') :: d' =>
      if conn_eqb k k' then (k, v) :: d' else (k', v') :: dict_set d' k v
  end.

(** ** Arrays *)

Section Network.
Context {num : Type} {SN : Scalar num}.

Definition vec := list num.
Definition mat := list vec.        (* [batch, unit] *)
Definition tensor3 := list mat.    (* [batch, timestep, unit] *)

Definition zeros (n : nat) : vec := repeat nzero n.
Definition zeros2 (b n : nat) : mat := repeat (zeros n) b.
Definition zeros3 (b t n : nat) : tensor3 := repeat (zeros2 t n) b.
Definition zeros_like (v : vec) : vec := map (fun _ => nzero) v.
Definition zeros_like2 (m : mat) : mat := map zeros_like m.
Definition zeros_like3 (a : tensor3) : tensor3 := map zeros_like2 a.

Definition shape0 {X : Type} (a : list X) : nat := length a.
Definition shape1 {X : Type} (a : list (list X)) : nat :=
  match a with [] => 0 | r :: _ => length r end.

Definition vadd : vec -> vec -> vec := zip_with nadd.
Definition vadd_ip : vec -> vec -> vec := zip_ip nadd.
Definition madd : mat -> mat -> mat := zip_with vadd.
Definition madd_ip : mat -> mat -> mat := zip_ip vadd_ip.
(* broadcasting a bias row over the batch *)
Definition madd_row (m : mat) (b : vec) : mat := map (fun r => vadd r b) m.
Definition madd_row_ip (m : mat) (b : vec) : mat :=
  map (fun r => vadd_ip r b) m.
Definition mmul : mat -> mat -> mat := zip_with (zip_with nmul).
Definition vscale (c : num) (v : vec) : vec := map (nmul c) v.
Definition mscale (c : num) (m : mat) : mat := map (vscale c) m.
Definition vdiv (v : vec) (n : nat) : vec := map (fun x => ndiv x n) v.

Definition inner (a b : vec) : num :=
  fold_left nadd (zip_with nmul a b) nzero.
Definition transpose (m : mat) : mat :=
  map (fun j => map (fun r => nth j r nzero) m) (seq 0 (shape1 m)).
(* np.dot(a, w) for a of shape [batch, n] and w of shape [n, m] *)
Definition dot (a w : mat) : mat :=
  map (fun r => map (inner r) (transpose w)) a.
(* np.sum(m, axis=0) *)
Definition colsum (m : mat) : vec :=
  match m with [] => [] | r :: rs => fold_left vadd rs r end.

(* a[:, s] *)
Definition col (a : tensor3) (s : nat) : mat :=
  map (fun r => nth s r []) a.
(* a[:, s] = m, in place *)
Fixpoint set_col (a : tensor3) (s : nat) (m : mat) : tensor3 :=
  match a with
  | [] => []
  | r :: a' => upd r s (hd [] m) :: set_col a' s (tl m)
  end.
(* a[:, i] for a possibly negative Python index; an index out of range,
   an IndexError in the source, is rendered as the empty slice *)
Definition col_py (a : tensor3) (i : Z) : mat :=
  match py_index (shape1 a) i with
  | Some k => col a k
  | None => []
  end.

(* v[lo:hi] *)
Definition slice (v : vec) (lo hi : nat) : vec :=
  firstn (hi - lo) (skipn lo v).
(* v[lo:hi] op= x: an update of the slice in place *)
Definition slice_upd (f : num -> num -> num) (v : vec) (lo hi : nat)
    (x : vec) : vec :=
  firstn lo v ++ zip_ip f (slice v lo hi) x ++ skipn (lo + (hi - lo)) v.
(* v[lo:hi] += x *)
Definition slice_add : vec -> nat -> nat -> vec -> vec := slice_upd nadd.
(* v[lo:hi] = x *)
Definition slice_set : vec -> nat -> nat -> vec -> vec :=
  slice_upd (fun _ y => y).

(* the CPU reference of outer_sum: ravel(einsum("ij,ik", a, b)) *)
Definition einsum_outer (a b : mat) : vec :=
  concat (map (fun aj => map (inner aj) (transpose b)) (transpose a)).

(** ** Collaborators of the network

    The nonlinearities, the plant and the base class [HessianFF] are not
    part of this module; what the code calls on them is taken as given. *)

Context {LState Jac PState WParams Kwargs : Type}.

(* a layer object: its flags and its methods, over its internal state *)
Record Nonlinearity : Type := {
  stateful : bool;
  use_activations : bool;
  reset : LState -> LState;
  activation : LState -> mat -> LState * mat;
  d_activation : LState -> mat -> LState * Jac
}.

(* a callable input: reset(), __call__, .shape, get_inputs(), get_targets() *)
Record Plant : Type := {
  p_reset : PState -> PState;
  p_call : PState -> mat -> PState * mat;
  p_shape : PState -> nat * nat;
  p_get_inputs : PState -> PState * tensor3;
  p_get_targets : PState -> PState * tensor3
}.

(* a numpy array by number of dimensions *)
Inductive ndarray : Type :=
| A0 (x : num)
| A1 (v : vec)
| A2 (m : mat)
| A3 (t : tensor3).

Definition ndim (a : ndarray) : nat :=
  match a with A0 _ => 0 | A1 _ => 1 | A2 _ => 2 | A3 _ => 3 end.

Inductive input : Type :=
| InPlant (p : Plant) (ps : PState)
| InArr (a : ndarray).

(* first argument of outer_sum: an array, or [l, np.index_exp[:, s]] when
   the activations live on the GPU *)
Inductive os_arg : Type :=
| OSArr (a : mat)
| OSIdx (l s : nat).

(** The inherited part of the object: the fields [HessianFF] sets and the
    methods it provides. *)
Record HessianFF : Type := {
  shape : list nat;
  layers : list Nonlinearity;
  conns : nat -> list nat;
  back_conns : nat -> list nat;
  offsets : dict;
  W : vec;
  inputs : tensor3;
  targets : tensor3;
  activations : list tensor3;
  d_activations : list (list Jac);     (* [layer][timestep] *)
  GPU_activations : bool;              (* is not None *)
  get_weights : vec -> conn -> option (mat * vec);
  init_weights : list (nat * nat) -> WParams -> vec;
  J_dot : Jac -> mat -> bool -> mat;   (* J_dot(J, v, transpose) *)
  outer_sum : os_arg -> mat -> vec;
  loss_d : mat -> mat -> mat;          (* self.loss[1] *)
  loss_d2 : mat -> mat -> mat;         (* self.loss[2] *)
  jac_block : Jac -> nat -> Jac        (* J[..., k] *)
}.

Record HessianRNN : Type := {
  base : HessianFF;
  struc_damping : num;
  rec_layers : list bool
}.

Definition n_layers (b : HessianFF) : nat := length (shape b).

(* the pair a call of get_weights is unpacked into; unpacking [None] is a
   TypeError in the source, which the offset table rules out for every
   connection the loops visit *)
Definition the_weights (o : option (mat * vec)) : mat * vec :=
  match o with Some wb => wb | None => ([], []) end.

Definition the_mat (o : option mat) : mat :=
  match o with Some m => m | None => [] end.

(* for i in range(n) / for i in range(n - 1, -1, -1) *)
Definition for_range {St : Type} (n : nat) (body : nat -> St -> St)
    (st : St) : St :=
  fold_left (fun st i => body i st) (seq 0 n) st.
Definition for_range_down {St : Type} (n : nat) (body : nat -> St -> St)
    (st : St) : St :=
  fold_left (fun st i => body i st) (rev (seq 0 n)) st.

(** ** HessianRNN.forward *)

(* the value bound to rec_input: a [batch, unit] array, the bias row, or
   the integer 0 *)
Inductive rec_val : Type :=
| RMat (m : mat)
| RRow (b : vec)
| RInt0.

(* ff_input + rec_input, with numpy's broadcasting *)
Definition add_rec (ff : mat) (r : rec_val) : mat :=
  match r with
  | RMat m => madd ff m
  | RRow b => madd_row ff b
  | RInt0 => map (map (fun x => nadd x nzero)) ff
  end.

Record fstate : Type := {
  f_input : input;               (* a plant carries its state along *)
  f_acts : list tensor3;         (* activations *)
  f_dacts : list (list Jac);     (* d_activations, when deriv *)
  f_lstates : nat -> LState;     (* internal state of self.layers[i] *)
  f_calls : list mat             (* arguments the plant was called with *)
}.

(* lines 76-81 *)
Definition promote (inp : input) : exn + input :=
  match inp with
  | InPlant p ps => inr (InPlant p (p_reset p ps))
  | InArr a =>
      if ndim a <? 3 then
        match a with
        | A2 m => inr (InArr (A3 [m]))     (* input[None, :, :] *)
        | _ => inl IndexError              (* too many indices *)
        end
      else inr inp
  end.

Definition arr3 (a : ndarray) : tensor3 :=
  match a with A3 t => t | _ => [] end.

(* input.shape[0], input.shape[1] *)
Definition input_shape (inp : input) : nat * nat :=
  match inp with
  | InPlant p ps => p_shape p ps
  | InArr a => (shape0 (arr3 a), shape1 (arr3 a))
  end.

Definition W_recs_of (b : HessianFF) (params : vec)
    : list (option (mat * vec)) :=
  map (fun i => get_weights b params (i, i)) (seq 0 (n_layers b)).

(* lines 108-111 *)
Definition ff_input_of (b : HessianFF) (params : vec)
    (acts : list tensor3) (s i : nat) : mat :=
  fold_left
    (fun ff pre =>
       let '(Wm, bv) := the_weights (get_weights b params (pre, i)) in
       madd_ip ff (madd_row (dot (col (nth pre acts []) s) Wm) bv))
    (back_conns b i)
    (zeros_like2 (col (nth i acts []) s)).

(* lines 114-122 *)
Definition rec_input_of (self : HessianRNN)
    (W_recs : list (option (mat * vec))) (acts : list tensor3)
    (s i : nat) : rec_val :=
  if nth i (rec_layers self) false then
    if 0 <? s then
      RMat (dot (col (nth i acts []) (s - 1))
                (fst (the_weights (nth i W_recs None))))
    else RRow (snd (the_weights (nth i W_recs None)))
  else RInt0.

(* lines 98-105: the external input of layer 0 *)
Definition external_input (st : fstate) (s : nat)
    : input * mat * list mat :=
  match f_input st with
  | InPlant p ps =>
      let arg := col_py (last (f_acts st) []) (Z.of_nat s - 1) in
      let '(ps', x) := p_call p ps arg in
      (InPlant p ps', x, f_calls st ++ [arg])
  | InArr a => (f_input st, col (arr3 a) s, f_calls st)
  end.

(* lines 98-111: the input of layer i, from outside or from the layers
   that feed it *)
Definition cell_input (b : HessianFF) (params : vec) (st : fstate)
    (s i : nat) : input * mat * list mat :=
  if i =? 0 then external_input st s
  else (f_input st, ff_input_of b params (f_acts st) s i, f_calls st).

(* the body of the two loops, lines 98-139 *)
Definition forward_cell (self : HessianRNN) (params : vec) (deriv : bool)
    (W_recs : list (option (mat * vec))) (s i : nat) (st : fstate)
    : fstate :=
  let b := base self in
  match nth_error (layers b) i with
  | None => st
  | Some L =>
      let '(inp, ff_input, calls) := cell_input b params st s i in
      let rec_input := rec_input_of self W_recs (f_acts st) s i in
      let '(ls1, a) :=
        activation L (f_lstates st i) (add_rec ff_input rec_input) in
      let acts := upd (f_acts st) i (set_col (nth i (f_acts st) []) s a) in
      let '(ls2, dacts) :=
        if deriv then
          let '(ls2, d_act) :=
            d_activation L ls1
              (if use_activations L then col (nth i acts []) s
               else add_rec ff_input rec_input) in
          (ls2, upd (f_dacts st) i (nth i (f_dacts st) [] ++ [d_act]))
        else (ls1, f_dacts st) in
      {| f_input := inp; f_acts := acts; f_dacts := dacts;
         f_lstates := fun j => if j =? i then ls2 else f_lstates st j;
         f_calls := calls |}
  end.

(* the state the loops start from, lines 83-95 *)
Definition forward_init (self : HessianRNN) (lst : nat -> LState)
    (inp : input) (deriv : bool) : fstate :=
  let b := base self in
  let '(B, T) := input_shape inp in
  {| f_input := inp;
     f_acts := map (fun l => zeros3 B T l) (shape b);
     f_dacts := if deriv then map (fun _ => []) (layers b) else [];
     f_lstates := fun i =>
       match nth_error (layers b) i with
       | Some L => reset L (lst i)
       | None => lst i
       end;
     f_calls := [] |}.

(* the state just before the body runs for timestep [s] and layer [i] *)
Definition forward_upto (self : HessianRNN) (params : vec) (deriv : bool)
    (s i : nat) (st0 : fstate) : fstate :=
  let b := base self in
  let cell := forward_cell self params deriv (W_recs_of b params) in
  for_range i (cell s)
    (for_range s (fun s' => for_range (n_layers b) (cell s')) st0).

Definition forward_loops (self : HessianRNN) (params : vec) (deriv : bool)
    (st0 : fstate) : fstate :=
  let b := base self in
  let cell := forward_cell self params deriv (W_recs_of b params) in
  for_range (snd (input_shape (f_input st0)))
    (fun s => for_range (n_layers b) (cell s)) st0.

(* forward(input, params, deriv): the activations are [f_acts], and with
   deriv the derivatives are [f_dacts] *)
Definition forward (self : HessianRNN) (lst : nat -> LState) (inp : input)
    (params : vec) (deriv : bool) : exn + fstate :=
  match promote inp with
  | inl e => inl e
  | inr inp' =>
      inr (forward_loops self params deriv
             (forward_init self lst inp' deriv))
  end.

(** ** HessianRNN.error

    [super_error] is the base class's error(W, inputs, targets), run on
    the layers as the forward pass left them; its weight argument stays
    [None] when the caller passes no weights along with an array input. *)

Definition error {Res : Type}
    (super_error : (nat -> LState) -> option vec -> input ->
                   option tensor3 -> exn + Res)
    (self : HessianRNN) (lst : nat -> LState)
    (W_arg : option vec) (inp : input) (tgt : option tensor3)
    : exn + Res :=
  match inp with
  | InPlant p ps =>
      match tgt with
      | Some _ => inl AssertionError        (* assert targets is None *)
      | None =>
          let Wv := match W_arg with None => W (base self) | Some w => w end in
          match forward self lst inp Wv false with
          | inl e => inl e
          | inr st =>
              match f_input st with
              | InPlant p' ps' =>
                  let '(ps1, t) := p_get_targets p' ps' in
                  let '(ps2, x) := p_get_inputs p' ps1 in
                  super_error (f_lstates st) (Some Wv) (InArr (A3 x))
                    (Some t)
              | InArr _ => inl (BaseError 0)  (* not reached *)
              end
          end
      end
  | InArr _ => super_error lst W_arg inp tgt
  end.

(** ** HessianRNN.calc_grad *)

Record gstate : Type := {
  g_grad : vec;
  g_deltas : list mat;
  g_state_deltas : list (option mat)
}.

Definition os_activation (b : HessianFF) (l s : nat) : os_arg :=
  if GPU_activations b then OSIdx l s
  else OSArr (col (nth l (activations b) []) s).

(* lines 182-196 and 316-328: the error from the feedforward weights, and
   their gradient; [err0] is the zero array the error starts from *)
Definition ff_error_grad (b : HessianFF) (deltas : list mat) (s l : nat)
    (err0 : mat) (grad : vec) : mat * vec :=
  fold_left
    (fun '(err, grad) post =>
       let c_error :=
         dot (nth post deltas [])
             (transpose (fst (the_weights (get_weights b (W b) (l, post)))))
       in
       let err := madd_ip err c_error in
       match dict_get (offsets b) (l, post) with
       | None => (err, grad)           (* KeyError in the source *)
       | Some (offset, W_end, b_end) =>
           let grad :=
             slice_add grad offset W_end
               (outer_sum b (os_activation b l s) (nth post deltas [])) in
           let grad :=
             slice_add grad W_end b_end (colsum (nth post deltas [])) in
           (err, grad)
       end)
    (conns b l) (err0, grad).

(* lines 219-229 and 362-371: the gradient of the recurrent weights *)
Definition rec_grad (self : HessianRNN) (s l : nat) (delta : mat)
    (grad : vec) : vec :=
  let b := base self in
  if nth l (rec_layers self) false then
    match dict_get (offsets b) (l, l) with
    | None => grad                     (* KeyError in the source *)
    | Some (offset, W_end, b_end) =>
        if 0 <? s then
          slice_add grad offset W_end
            (outer_sum b (os_activation b l (s - 1)) delta)
        else slice_set grad W_end b_end (colsum delta)
    end
  else grad.

(* lines 203-216 and 335-352: the deltas of layer l from the error that
   reaches it *)
Definition deltas_of (b : HessianFF) (L : Nonlinearity) (J : Jac)
    (err : mat) (l : nat) (deltas : list mat)
    (state_deltas : list (option mat)) : list mat * list (option mat) :=
  if negb (stateful L) then
    (upd deltas l (J_dot b J err true), state_deltas)
  else
    let d_input := jac_block b J 0 in
    let d_state := jac_block b J 1 in
    let d_output := jac_block b J 2 in
    let sd := madd_ip (the_mat (nth l state_deltas None))
                      (J_dot b d_output err true) in
    (upd deltas l (J_dot b d_input sd true),
     upd state_deltas l (Some (J_dot b d_state sd true))).

(* lines 176-200: the error that reaches layer l, and the gradient after
   the feedforward updates *)
Definition error_of (self : HessianRNN)
    (W_recs : list (option (mat * vec))) (s l : nat) (st : gstate)
    : mat * vec :=
  let b := base self in
  let '(err, grad) :=
    if l =? n_layers b - 1 then
      (loss_d b (col (last (activations b) []) s) (col (targets b) s),
       g_grad st)
    else ff_error_grad b (g_deltas st) s l
           (zeros_like2 (nth l (g_deltas st) [])) (g_grad st) in
  (if nth l (rec_layers self) false then
     madd_ip err
       (dot (nth l (g_deltas st) [])
            (transpose (fst (the_weights (nth l W_recs None)))))
   else err,
   grad).

(* lines 176-229 *)
Definition calc_grad_cell (self : HessianRNN)
    (W_recs : list (option (mat * vec))) (s l : nat) (st : gstate)
    : gstate :=
  let b := base self in
  match nth_error (layers b) l,
        nth_error (nth l (d_activations b) []) s with
  | Some L, Some J =>
      let '(err, grad) := error_of self W_recs s l st in
      let '(deltas, state_deltas) :=
        deltas_of b L J err l (g_deltas st) (g_state_deltas st) in
      {| g_grad := rec_grad self s l (nth l deltas []) grad;
         g_deltas := deltas;
         g_state_deltas := state_deltas |}
  | _, _ => st
  end.

Definition state_zeros (b : HessianFF) : list (option mat) :=
  map (fun iL =>
         if stateful (snd iL)
         then Some (zeros2 (shape0 (inputs b)) (nth (fst iL) (shape b) 0))
         else None)
      (combine (seq 0 (length (layers b))) (layers b)).

Definition calc_grad_init (self : HessianRNN) : gstate :=
  let b := base self in
  {| g_grad := zeros_like (W b);
     g_deltas := map (fun l => zeros2 (shape0 (inputs b)) l) (shape b);
     g_state_deltas := state_zeros b |}.

(* the state just before the body runs for timestep [s] and layer [l]: the
   timesteps above [s] are done, and of timestep [s] the layers above [l] *)
Definition calc_grad_upto (self : HessianRNN) (s l : nat) : gstate :=
  let b := base self in
  let cell := calc_grad_cell self (W_recs_of b (W b)) in
  fold_left (fun st l' => cell s l' st)
    (rev (seq (S l) (n_layers b - S l)))
    (fold_left (fun st s' => for_range_down (n_layers b) (cell s') st)
       (rev (seq (S s) (shape1 (inputs b) - S s)))
       (calc_grad_init self)).

Definition calc_grad_loops (self : HessianRNN) : gstate :=
  let b := base self in
  let cell := calc_grad_cell self (W_recs_of b (W b)) in
  for_range_down (shape1 (inputs b))
    (fun s => for_range_down (n_layers b) (cell s))
    (calc_grad_init self).

Definition calc_grad (self : HessianRNN) : vec :=
  vdiv (g_grad (calc_grad_loops self)) (shape0 (inputs (base self))).

(** ** The caller's buffers

    [calc_G] writes into an array the caller may own, so the parameter-sized
    arrays the caller passes ([v] and [output]) live in a store and are
    named by their location; two names for one location are one array.
    [self.W] and the caches belong to the network and are only read. *)

Definition loc : Type := nat.

Record store : Type := {
  next : loc;                 (* locations below [next] are allocated *)
  mem : loc -> vec
}.

Definition load (h : store) (l : loc) : vec := mem h l.

Definition write (h : store) (l : loc) (x : vec) : store :=
  {| next := next h;
     mem := fun l' => if l' =? l then x else mem h l' |}.

Definition alloc (h : store) (x : vec) : store * loc :=
  ({| next := S (next h);
      mem := fun l' => if l' =? next h then x else mem h l' |},
   next h).

(** ** HessianRNN.calc_G *)

(* the R forward pass, lines 248-298 *)
Record rfstate : Type := {
  R_inputs : list tensor3;
  R_states : list (option mat);
  R_activations : list (option mat);
  R_outputs : tensor3
}.

(* R_inputs[l][:, s] += x *)
Definition add_col (Rin : list tensor3) (l s : nat) (x : mat)
    : list tensor3 :=
  upd Rin l (set_col (nth l Rin []) s (madd_ip (col (nth l Rin []) s) x)).
(* the same with a bias row broadcast over the batch *)
Definition add_col_row (Rin : list tensor3) (l s : nat) (x : vec)
    : list tensor3 :=
  upd Rin l
    (set_col (nth l Rin []) s (madd_row_ip (col (nth l Rin []) s) x)).

(* lines 264-270 *)
Definition R_ff_input (b : HessianFF) (v : vec)
    (R_act : list (option mat)) (s l : nat) (Rin : list tensor3)
    : list tensor3 :=
  if 0 <? l then
    fold_left
      (fun Rin pre =>
         let '(vw, vb) := the_weights (get_weights b v (pre, l)) in
         let '(Ww, _) := the_weights (get_weights b (W b) (pre, l)) in
         let Rin :=
           add_col Rin l s
             (madd_row (dot (col (nth pre (activations b) []) s) vw) vb) in
         add_col Rin l s (dot (the_mat (nth pre R_act None)) Ww))
      (back_conns b l) Rin
  else Rin.

(* lines 273-281 *)
Definition R_rec_input (self : HessianRNN)
    (v_recs W_recs : list (option (mat * vec)))
    (R_act : list (option mat)) (s l : nat) (Rin : list tensor3)
    : list tensor3 :=
  let b := base self in
  if nth l (rec_layers self) false then
    if s =? 0 then
      add_col_row Rin l s (snd (the_weights (nth l v_recs None)))
    else
      add_col Rin l s
        (madd (dot (col (nth l (activations b) []) (s - 1))
                   (fst (the_weights (nth l v_recs None))))
              (dot (the_mat (nth l R_act None))
                   (fst (the_weights (nth l W_recs None)))))
  else Rin.

(* lines 263-293 *)
Definition R_forward_cell (self : HessianRNN) (v : vec)
    (v_recs W_recs : list (option (mat * vec))) (s l : nat)
    (st : rfstate) : rfstate :=
  let b := base self in
  match nth_error (layers b) l,
        nth_error (nth l (d_activations b) []) s with
  | Some L, Some J =>
      let Rin := R_ff_input b v (R_activations st) s l (R_inputs st) in
      let Rin :=
        R_rec_input self v_recs W_recs (R_activations st) s l Rin in
      let R_in_s := col (nth l Rin []) s in
      if negb (stateful L) then
        {| R_inputs := Rin;
           R_states := R_states st;
           R_activations :=
             upd (R_activations st) l (Some (J_dot b J R_in_s false));
           R_outputs := R_outputs st |}
      else
        let d_input := jac_block b J 0 in
        let d_state := jac_block b J 1 in
        let d_output := jac_block b J 2 in
        let Rs := J_dot b d_state (the_mat (nth l (R_states st) None))
                    false in
        let Rs := madd_ip Rs (J_dot b d_input R_in_s false) in
        {| R_inputs := Rin;
           R_states := upd (R_states st) l (Some Rs);
           R_activations :=
             upd (R_activations st) l (Some (J_dot b d_output Rs false));
           R_outputs := R_outputs st |}
  | _, _ => st
  end.

(* one timestep of the R forward pass, lines 262-298 *)
Definition R_forward_step (self : HessianRNN) (v : vec)
    (v_recs W_recs : list (option (mat * vec))) (s : nat) (st : rfstate)
    : rfstate :=
  let st :=
    for_range (n_layers (base self))
      (R_forward_cell self v v_recs W_recs s) st in
  {| R_inputs := R_inputs st;
     R_states := R_states st;
     R_activations := R_activations st;
     R_outputs :=
       set_col (R_outputs st) s
         (the_mat (last (R_activations st) None)) |}.

Definition R_forward (self : HessianRNN) (v : vec) : rfstate :=
  let b := base self in
  for_range (shape1 (inputs b))
    (R_forward_step self v (W_recs_of b v) (W_recs_of b (W b)))
    {| R_inputs := map (fun i => zeros_like3 (nth i (activations b) []))
                       (seq 0 (n_layers b));
       R_states := state_zeros b;
       R_activations := map (fun _ => None) (shape b);
       R_outputs := zeros_like3 (last (activations b) []) |}.

(* the R backward pass, lines 301-371 *)
Record rbstate : Type := {
  b_Gv : vec;
  R_deltas : list mat;
  Rb_states : list (option mat)
}.

(* lines 309-332: the error that reaches layer l, and Gv after the
   feedforward updates *)
Definition R_error_of (self : HessianRNN) (R : rfstate)
    (W_recs : list (option (mat * vec))) (s l : nat) (st : rbstate)
    : mat * vec :=
  let b := base self in
  let '(R_error, Gv) :=
    if l =? n_layers b - 1 then
      (mmul (col (R_outputs R) s)
            (loss_d2 b (col (nth l (activations b) []) s)
                       (col (targets b) s)),
       b_Gv st)
    else ff_error_grad b (R_deltas st) s l
           (zeros_like2 (col (nth l (activations b) []) s)) (b_Gv st) in
  (if nth l (rec_layers self) false then
     madd_ip R_error
       (dot (nth l (R_deltas st) [])
            (transpose (fst (the_weights (nth l W_recs None)))))
   else R_error,
   Gv).

(* the Jacobian bound to d_output, lines 336 and 345 *)
Definition d_output_of (b : HessianFF) (L : Nonlinearity) (J : Jac) : Jac :=
  if negb (stateful L) then J else jac_block b J 2.

(* lines 354-359: apply structural damping *)
Definition struc_damp (self : HessianRNN) (damping : num) (R : rfstate)
    (d_output : Jac) (s l : nat) (R_delta : mat) : mat :=
  madd_ip R_delta
    (J_dot (base self) d_output
       (mscale (nmul damping (struc_damping self))
               (col (nth l (R_inputs R) []) s))
       false).

(* lines 309-371 *)
Definition R_backward_cell (self : HessianRNN) (damping : num)
    (R : rfstate) (W_recs : list (option (mat * vec))) (s l : nat)
    (st : rbstate) : rbstate :=
  let b := base self in
  match nth_error (layers b) l,
        nth_error (nth l (d_activations b) []) s with
  | Some L, Some J =>
      let '(R_error, Gv) := R_error_of self R W_recs s l st in
      let '(deltas, states) :=
        deltas_of b L J R_error l (R_deltas st) (Rb_states st) in
      let deltas :=
        upd deltas l
          (struc_damp self damping R (d_output_of b L J) s l
             (nth l deltas [])) in
      {| b_Gv := rec_grad self s l (nth l deltas []) Gv;
         R_deltas := deltas;
         Rb_states := states |}
  | _, _ => st
  end.

Definition R_backward_init (self : HessianRNN) (Gv : vec) : rbstate :=
  let b := base self in
  {| b_Gv := Gv;
     R_deltas := map (fun l => zeros2 (shape0 (inputs b)) l) (shape b);
     Rb_states := state_zeros b |}.

(* the state just before the body runs for timestep [s] and layer [l]:
   the timesteps above [s] are done, and of timestep [s] the layers
   above [l] *)
Definition R_backward_upto (self : HessianRNN) (damping : num)
    (R : rfstate) (s l : nat) (st0 : rbstate) : rbstate :=
  let b := base self in
  let cell := R_backward_cell self damping R (W_recs_of b (W b)) in
  fold_left (fun st l' => cell s l' st)
    (rev (seq (S l) (n_layers b - S l)))
    (fold_left (fun st s' => for_range_down (n_layers b) (cell s') st)
       (rev (seq (S s) (shape1 (inputs b) - S s))) st0).

Definition R_backward (self : HessianRNN) (damping : num) (R : rfstate)
    (Gv : vec) : rbstate :=
  let b := base self in
  let cell := R_backward_cell self damping R (W_recs_of b (W b)) in
  for_range_down (shape1 (inputs b))
    (fun s => for_range_down (n_layers b) (cell s))
    (R_backward_init self Gv).

(* calc_G(v, damping, output): the store after the call and the location
   of the array it returns *)
Definition calc_G (self : HessianRNN) (h : store) (v : loc)
    (damping : num) (output : option loc) : store * loc :=
  let b := base self in
  let '(h, Gv) :=
    match output with
    | None => alloc h (zeros (length (W b)))
    | Some o => (write h o (zeros_like (load h o)), o)     (* Gv[:] = 0 *)
    end in
  let R := R_forward self (load h v) in
  let h := write h Gv (b_Gv (R_backward self damping R (load h Gv))) in
  let h := write h Gv (vdiv (load h Gv) (shape0 (inputs b))) in
  let h := write h Gv (vadd_ip (load h Gv) (vscale damping (load h v))) in
  (h, Gv).

(* what calc_G leaves in the array it returns when that array is not [v]
   itself: [vv] is the contents of [v], [Gv0] the zeroed buffer *)
Definition calc_G_value (self : HessianRNN) (vv : vec) (damping : num)
    (Gv0 : vec) : vec :=
  vadd_ip
    (vdiv (b_Gv (R_backward self damping (R_forward self vv) Gv0))
          (shape0 (inputs (base self))))
    (vscale damping vv).

(* the contents of the array a call returns *)
Definition returned (r : store * loc) : vec := load (fst r) (snd r).

(** ** HessianRNN.compute_offsets and HessianRNN.__init__ *)

Definition set_offsets (b : HessianFF) (d : dict) : HessianFF :=
  {| shape := shape b; layers := layers b; conns := conns b;
     back_conns := back_conns b; offsets := d; W := W b;
     inputs := inputs b; targets := targets b;
     activations := activations b; d_activations := d_activations b;
     GPU_activations := GPU_activations b;
     get_weights := get_weights b; init_weights := init_weights b;
     J_dot := J_dot b; outer_sum := outer_sum b; loss_d := loss_d b;
     loss_d2 := loss_d2 b; jac_block := jac_block b |}.

Definition set_W (b : HessianFF) (w : vec) : HessianFF :=
  {| shape := shape b; layers := layers b; conns := conns b;
     back_conns := back_conns b; offsets := offsets b; W := w;
     inputs := inputs b; targets := targets b;
     activations := activations b; d_activations := d_activations b;
     GPU_activations := GPU_activations b;
     get_weights := get_weights b; init_weights := init_weights b;
     J_dot := J_dot b; outer_sum := outer_sum b; loss_d := loss_d b;
     loss_d2 := loss_d2 b; jac_block := jac_block b |}.

(* the base class's compute_offsets: it builds the table of the
   feedforward connections *)
Variable super_compute_offsets : HessianFF -> HessianFF.

(* what HessianFF.__init__ does before it calls self.compute_offsets():
   it sets the inherited fields, among them the parameter vector *)
Variable super_setup : list nat -> Kwargs -> exn + HessianFF.

(* kwargs.get("load_weights", None) *)
Variable kw_load_weights : Kwargs -> option vec.

(* lines 59-65: one step of the loop over the layers *)
Definition rec_offset_step (shp : list nat) (rl : list bool)
    (od : nat * dict) (l : nat) : nat * dict :=
  let '(offset, d) := od in
  if nth l rl false then
    let n := nth l shp 0 in
    (offset + (n + 1) * n,
     dict_set d (l, l) (offset, offset + n * n, offset + (n + 1) * n))
  else (offset, d).

Definition compute_offsets (self : HessianRNN) : HessianRNN :=
  let b := super_compute_offsets (base self) in
  let offset := length (W b) in   (* note: gets called before rec_W added *)
  let od :=
    fold_left (rec_offset_step (shape b) (rec_layers self))
      (seq 0 (n_layers b)) (offset, offsets b) in
  {| base := set_offsets b (snd od);
     struc_damping := struc_damping self;
     rec_layers := rec_layers self |}.

(** Modelled from the spec: HessianFF.__init__, of the module hessianff
    that is not among the sources.  It allocates the parameter vector and
    the other inherited fields, then has the object compute its offset
    table, through the method the subclass overrides. *)
Definition HessianFF_init (sd : num) (rl : list bool) (shp : list nat)
    (kwargs : Kwargs) : exn + HessianRNN :=
  match super_setup shp kwargs with
  | inl e => inl e
  | inr b =>
      inr (compute_offsets
             {| base := b; struc_damping := sd; rec_layers := rl |})
  end.

(* the calls into the base class that a construction makes *)
Inductive call : Type :=
| Call_super_init
| Call_init_weights (shapes : list (nat * nat)).

Definition default_rec_layers (shp : list nat) : list bool :=
  [false] ++ repeat true (length shp - 2) ++ [false].

(* the shapes of the recurrent weights, lines 47-49 *)
Definition rec_shapes (b : HessianFF) (rl : list bool)
    : list (nat * nat) :=
  map (fun l => (nth l (shape b) 0, nth l (shape b) 0))
      (filter (fun l => nth l rl false) (seq 0 (n_layers b))).

(* HessianRNN(shape, struc_damping, rec_layers, W_rec_params, **kwargs):
   the calls made, and the object or the exception *)
Definition init (shp : list nat) (sd : num)
    (rec_arg : option (list bool)) (W_rec_params : WParams)
    (kwargs : Kwargs) : list call * (exn + HessianRNN) :=
  let rl :=
    match rec_arg with
    | None => default_rec_layers shp
    | Some r => r
    end in
  if negb (length rl =? length shp) then
    ([], inl (ValueError "Must define recurrence for each layer"%string))
  else
    match HessianFF_init sd rl shp kwargs with
    | inl e => ([Call_super_init], inl e)
    | inr self =>
        let b := base self in
        match kw_load_weights kwargs with
        | None =>
            if existsb (fun x => x) rl then
              ([Call_super_init; Call_init_weights (rec_shapes b rl)],
               inr {| base :=
                        set_W b
                          (W b ++ init_weights b (rec_shapes b rl)
                                    W_rec_params);
                      struc_damping := struc_damping self;
                      rec_layers := rec_layers self |})
            else ([Call_super_init], inr self)
        | Some _ => ([Call_super_init], inr self)
        end
    end.

End Network.

(** ** Partition of the parameter vector

    [covering d k] counts the blocks of the table that contain the index
    [k].  The table partitions [0, n) when every index below [n] lies in
    exactly one block and every other index in none: the blocks are then
    pairwise disjoint and their union is [0, n). *)

Definition in_block (k : nat) (c : cuts) : bool :=
  let '(offset, _, b_end) := c in (offset <=? k) && (k <? b_end).

Definition covering (d : dict) (k : nat) : nat :=
  length (filter (fun e => in_block k (snd e)) d).

Definition partitions (d : dict) (n : nat) : Prop :=
  forall k, covering d k = if k <? n then 1 else 0.

Definition partitionsb (d : dict) (n bound : nat) : bool :=
  forallb (fun k => covering d k =? (if k <? n then 1 else 0))
          (seq 0 bound).

Definition sum_sizes (shapes : list (nat * nat)) : nat :=
  fold_right (fun s n => (fst s + 1) * snd s + n) 0 shapes.

(* the sizes of the recurrent blocks of the layers start .. start+j-1 *)
Definition rec_sizes (shp : list nat) (rl : list bool) (start j : nat)
    : nat :=
  sum_sizes (map (fun l => (nth l shp 0, nth l shp 0))
                 (filter (fun l => nth l rl false) (seq start j))).

(** A table is in order when every entry has its cut points in increasing
    order and two different connections have blocks apart from each
    other. *)

Definition wf_cuts (c : cuts) : Prop :=
  let '(offset, W_end, b_end) := c in offset <= W_end <= b_end.

Definition apart (c1 c2 : cuts) : Prop :=
  let '(o1, _, e1) := c1 in
  let '(o2, _, e2) := c2 in
  e1 <= o2 \/ e2 <= o1.

Definition table_ok (d : dict) : Prop :=
  (forall k c, dict_get d k = Some c -> wf_cuts c) /\
  (forall k1 k2 c1 c2,
     k1 <> k2 -> dict_get d k1 = Some c1 -> dict_get d k2 = Some c2 ->
     apart c1 c2).

(** The activations of a pass over a batch of [B] samples and [T]
    timesteps: one array per layer, each of [B] rows of [T] slots. *)
Definition acts_shaped {X : Type} (B T n : nat)
    (acts : list (list (list X))) : Prop :=
  length acts = n /\
  forall i, i < n ->
    length (nth i acts []) = B /\
    Forall (fun r => length r = T) (nth i acts []).

(** Two states of a forward pass that have made the same progress: the
    same activations, the same state in every layer, the same calls of the
    plant. *)
Definition same_progress {num LState Jac PState : Type}
    (st st' : @fstate num LState Jac PState) : Prop :=
  f_acts st = f_acts st' /\
  (forall j, f_lstates st j = f_lstates st' j) /\
  f_calls st = f_calls st'.

(* the same network with another structural-damping coefficient *)
Definition with_struc_damping {num LState Jac WParams : Type}
    (self : @HessianRNN num LState Jac WParams) (sd : num)
    : @HessianRNN num LState Jac WParams :=
  {| base := base self; struc_damping := sd; rec_layers := rec_layers self |}.

(* an index of the parameter vector that lies in no block of the table *)
Definition outside_blocks (d : dict) (k : nat) : Prop :=
  forall key c, dict_get d key = Some c -> in_block k c = false.

(** ** Reference collaborators

    The base class and the nonlinearities are not among the sources; the
    definitions below stand in for them where a concrete network is run. *)

Section Reference.
Context {num : Type} {SN : Scalar num}.

(* v.reshape((rows, cols)) *)
Fixpoint reshape (rows cols : nat) (v : @vec num) : @mat num :=
  match rows with
  | O => []
  | S r => firstn cols v :: reshape r cols (skipn cols v)
  end.

(** Modelled from the spec: HessianFF.get_weights, of the module hessianff
    that is not among the sources.  It returns the weight matrix and the
    bias vector of a connection as the two slices of the parameter vector
    that the offset table gives, and [None] for a connection that has no
    entry. *)
Definition get_weights_ref (shp : list nat) (d : dict) (params : vec)
    (c : conn) : option (mat * vec) :=
  match dict_get d c with
  | None => None
  | Some (offset, W_end, b_end) =>
      Some (reshape (nth (fst c) shp 0) (nth (snd c) shp 0)
              (slice params offset W_end),
            slice params W_end b_end)
  end.

(** Modelled from the spec: HessianFF.compute_offsets, of the module
    hessianff that is not among the sources.  It assigns a range to every
    feedforward connection in topology order, weights first and then the
    biases of the target layer. *)
Definition ff_offsets_ref (shp : list nat) (cs : list conn) : nat * dict :=
  fold_left
    (fun od c =>
       let '(offset, d) := od in
       let n := nth (fst c) shp 0 * nth (snd c) shp 0 in
       (offset + n + nth (snd c) shp 0,
        dict_set d c (offset, offset + n, offset + n + nth (snd c) shp 0)))
    cs (0, []).

Definition ones_like2 (one : num) (m : @mat num) : @mat num :=
  map (map (fun _ => one)) m.
End Reference.

(** ** A concrete scalar type: the rationals *)

#[export] Instance Qc_scalar : Scalar Qc := {
  nzero := 0%Qc;
  nadd := Qcplus;
  nmul := Qcmult;
  ndiv := fun x n => Qcdiv x (Q2Qc (inject_Z (Z.of_nat n)))
}.

#[export] Instance Qc_laws : ScalarLaws Qc.
Proof.
  split; intros x; simpl.
  - apply Qcplus_0_r.
  - apply Qcmult_0_l.
  - apply Qcmult_0_r.
Defined.

Module Demo.

Definition q (z : Z) : Qc := Q2Qc (inject_Z z).

(* a linear layer without internal state *)
Definition linear : @Nonlinearity Qc unit (@mat Qc) :=
  {| stateful := false;
     use_activations := false;
     reset := fun s => s;
     activation := fun s m => (s, m);
     d_activation := fun s m => (s, ones_like2 (q 1) m) |}.

(* a network of linear layers with the squared-error loss, whose
   Jacobians are elementwise *)
Definition net (shp : list nat) (cs : list conn) (d : dict) (w : @vec Qc)
    (x t : @tensor3 Qc) (acts : list (@tensor3 Qc))
    (dacts : list (list (@mat Qc))) : @HessianFF Qc unit (@mat Qc) unit :=
  {| shape := shp;
     layers := map (fun _ => linear) shp;
     conns := fun l => map snd (filter (fun c => fst c =? l) cs);
     back_conns := fun l => map fst (filter (fun c => snd c =? l) cs);
     offsets := d;
     W := w;
     inputs := x;
     targets := t;
     activations := acts;
     d_activations := dacts;
     GPU_activations := false;
     get_weights := get_weights_ref shp d;
     init_weights := fun shapes _ =>
       zeros (fold_right (fun s n => (fst s + 1) * snd s + n) 0 shapes);
     J_dot := fun J v _ => mmul J v;
     outer_sum := fun a dl =>
       match a with OSArr m => einsum_outer m dl | OSIdx _ _ => [] end;
     loss_d := fun a tg => zip_with (zip_with Qcminus) a tg;
     loss_d2 := fun a _ => ones_like2 (q 1) a;
     jac_block := fun J _ => J |}.

Definition no_state : nat -> unit := fun _ => tt.

(* the raw rationals of an array, for comparison by computation *)
Definition raw (v : @vec Qc) : list Q := map this v.
Definition raw2 (m : @mat Qc) : list (list Q) := map raw m.
Definition raw3 (a : @tensor3 Qc) : list (list (list Q)) := map raw2 a.

(** The two-layer network [1, 1] with the connection 0 -> 1, one sample of
    one timestep. *)
Definition shp2 : list nat := [1; 1].
Definition cs2 : list conn := [(0, 1)].
Definition d2 : dict := snd (ff_offsets_ref shp2 cs2).
Definition w2 : @vec Qc := [q 1; q 0].
Definition x2 : @tensor3 Qc := [[[q 1]]].

Definition rnn2 (sd : Qc) : @HessianRNN Qc unit (@mat Qc) unit :=
  {| base := net shp2 cs2 d2 w2 x2 [[[q 1]]]
               [[[[q 1]]]; [[[q 1]]]] [[[[q 1]]]; [[[q 1]]]];
     struc_damping := sd;
     rec_layers := [false; false] |}.

(* a store holding the direction v = [1, 0] at location 0 *)
Definition h2 : @store Qc :=
  {| next := 1; mem := fun l => if l =? 0 then [q 1; q 0] else [] |}.

(* a store that also holds an output buffer with old contents, at 1 *)
Definition h2_out : @store Qc :=
  {| next := 2;
     mem := fun l => if l =? 0 then [q 1; q 0]
                     else if l =? 1 then [q 7; q 7] else [] |}.

(** The network [1, 1] whose output layer is recurrent: feedforward weight
    1 and bias 0, recurrent weight 1 and recurrent bias 5; one sample of two
    timesteps, with the caches a forward pass leaves. *)
Definition dR : dict := [((0, 1), (0, 1, 2)); ((1, 1), (2, 3, 4))].
Definition wR : @vec Qc := [q 1; q 0; q 1; q 5].
Definition xR : @tensor3 Qc := [[[q 1]; [q 1]]].

Definition rnnR : @HessianRNN Qc unit (@mat Qc) unit :=
  {| base := net [1; 1] [(0, 1)] dR wR xR [[[q 0]; [q 0]]]
               [[[[q 1]; [q 1]]]; [[[q 6]; [q 7]]]]
               [[[[q 1]]; [[q 1]]]; [[[q 1]]; [[q 1]]]];
     struc_damping := q 0;
     rec_layers := [false; true] |}.

(* all the numbers of the activations a forward pass returns, layer by
   layer *)
Definition act_values {PState : Type}
    (r : exn + @fstate Qc unit (@mat Qc) PState) : list Q :=
  match r with
  | inr st => concat (concat (concat (map raw3 (f_acts st))))
  | inl _ => []
  end.

(* a plant of two timesteps that counts its calls and always answers 1 *)
Definition plant1 : @Plant Qc nat :=
  {| p_reset := fun _ => 0;
     p_call := fun n _ => (S n, [[q 1]]);
     p_shape := fun _ => (1, 2);
     p_get_inputs := fun n => (n, [[[q 1]; [q 1]]]);
     p_get_targets := fun n => (n, [[[q 0]; [q 0]]]) |}.

(* a base-class error that only reports the lengths of what it is given *)
Definition base_error (_ : nat -> unit) (w : option (@vec Qc))
    (x : @input Qc nat) (t : option (@tensor3 Qc)) : exn + nat :=
  inr (match x with InArr (A3 a) => shape1 a | _ => 0 end).

(** The network [rnnR] as a construction with loaded weights leaves it:
    the four loaded parameters, and the recurrent block laid out from the
    length of the vector, past its end. *)
Definition dL : dict := [((0, 1), (0, 1, 2)); ((1, 1), (4, 5, 6))].

Definition rnnL : @HessianRNN Qc unit (@mat Qc) unit :=
  {| base := net [1; 1] [(0, 1)] dL wR xR [[[q 0]; [q 0]]]
               [[[[q 1]; [q 1]]]; [[[q 6]; [q 7]]]]
               [[[[q 1]]; [[q 1]]]; [[[q 1]]; [[q 1]]]];
     struc_damping := q 0;
     rec_layers := [false; true] |}.

(* a store holding a direction of four entries at location 0 *)
Definition h4 : @store Qc :=
  {| next := 1;
     mem := fun l => if l =? 0 then [q 1; q 2; q 3; q 4] else [] |}.

(* the store [h2] with other numbers in the array at location 0 *)
Definition h2_alt : @store Qc :=
  {| next := 1; mem := fun l => if l =? 0 then [q 5; q 5] else [] |}.

(* an input that agrees with [xR] at the first timestep only *)
Definition xR' : @tensor3 Qc := [[[q 1]; [q 9]]].

(** Modelled from the spec: the part of HessianFF.__init__ that allocates
    the parameter vector, of the module hessianff that is not among the
    sources.  The network has the default chain of feedforward connections
    and the only keyword argument is load_weights, the one the constructor
    of HessianRNN looks up: the array given there is the parameter vector
    when there is one, and init_weights over the feedforward connections
    makes it otherwise. *)
Definition chain (n : nat) : list conn :=
  map (fun l => (l, S l)) (seq 0 (n - 1)).

Definition ff_shapes (shp : list nat) : list (nat * nat) :=
  map (fun c => (nth (fst c) shp 0, nth (snd c) shp 0))
      (chain (length shp)).

Definition setup (shp : list nat) (kw : option (@vec Qc))
    : exn + @HessianFF Qc unit (@mat Qc) unit :=
  let b0 := net shp (chain (length shp)) [] [] [] [] [] [] in
  inr (set_W b0
         match kw with
         | Some w => w
         | None => init_weights b0 (ff_shapes shp) tt
         end).

Definition ff_compute_offsets (b : @HessianFF Qc unit (@mat Qc) unit)
    : @HessianFF Qc unit (@mat Qc) unit :=
  set_offsets b (snd (ff_offsets_ref (shape b) (chain (length (shape b))))).

Definition construct (shp : list nat) (rec_arg : option (list bool))
    (kw : option (@vec Qc)) :=
  init ff_compute_offsets setup (fun kw => kw) shp (q 0) rec_arg tt kw.

End Demo.

(** * Properties *)

(** ** Loops and lists *)

Lemma fold_left_inv {A B : Type} (P : A -> Prop) (f : A -> B -> A)
    (l : list B) (a : A) :
  P a -> (forall a' x, In x l -> P a' -> P (f a' x)) -> P (fold_left f l a).
Proof.
  revert a; induction l as [|x l IH]; intros a Ha Hf; simpl; auto.
  apply IH.
  - apply Hf; simpl; auto.
  - intros a' y Hy; apply Hf; simpl; auto.
Qed.

Lemma for_range_S {St : Type} (n : nat) (body : nat -> St -> St) (st : St) :
  for_range (S n) body st = body n (for_range n body st).
Proof.
  unfold for_range. rewrite seq_S, fold_left_app. reflexivity.
Qed.

Lemma for_range_first {St : Type} (n : nat) (body : nat -> St -> St)
    (st : St) :
  for_range (S n) body st =
  fold_left (fun st i => body i st) (seq 1 n) (body 0 st).
Proof. reflexivity. Qed.

Lemma for_range_down_S {St : Type} (n : nat) (body : nat -> St -> St)
    (st : St) :
  for_range_down (S n) body st = for_range_down n body (body n st).
Proof.
  unfold for_range_down. rewrite seq_S, rev_app_distr. reflexivity.
Qed.

Lemma nth_upd_same {A : Type} (l : list A) (i : nat) (x d : A) :
  i < length l -> nth i (upd l i x) d = x.
Proof.
  revert i; induction l as [|y l IH]; intros [|i] Hi; simpl in *;
    try lia; auto.
  apply IH; lia.
Qed.

Lemma nth_upd_other {A : Type} (l : list A) (i j : nat) (x d : A) :
  i <> j -> nth j (upd l i x) d = nth j l d.
Proof.
  revert i j; induction l as [|y l IH]; intros [|i] [|j] Hij; simpl;
    try congruence; auto.
Qed.

Lemma length_upd {A : Type} (l : list A) (i : nat) (x : A) :
  length (upd l i x) = length l.
Proof.
  revert i; induction l as [|y l IH]; intros [|i]; simpl; auto.
Qed.

Lemma length_zip_ip {A B : Type} (f : A -> B -> A) (a : list A)
    (b : list B) :
  length (zip_ip f a b) = length a.
Proof.
  revert b; induction a as [|x a IH]; intros [|y b]; simpl; auto.
Qed.

Section ArrayFacts.
Context {num : Type} {SN : Scalar num}.

Lemma col_set_col_other (a : @tensor3 num) (s s' : nat) (m : mat) :
  s <> s' -> col (set_col a s m) s' = col a s'.
Proof.
  intros Hs. revert m; induction a as [|r a IH]; intros m; simpl; auto.
  unfold col in *. simpl. rewrite IH. f_equal.
  apply nth_upd_other; auto.
Qed.

Lemma length_set_col (a : @tensor3 num) (s : nat) (m : mat) :
  length (set_col a s m) = length a.
Proof.
  revert m; induction a as [|r a IH]; intros m; simpl; auto.
Qed.

Lemma shape1_set_col (a : @tensor3 num) (s : nat) (m : mat) :
  shape1 (set_col a s m) = shape1 a.
Proof.
  destruct a as [|r a]; simpl; auto. apply length_upd.
Qed.

Lemma col_zeros3 (B T n s : nat) :
  s < T -> col (zeros3 B T n) s = @zeros2 num _ B n.
Proof.
  intros Hs. unfold col, zeros3, zeros2.
  rewrite map_repeat. f_equal. apply nth_repeat_lt. exact Hs.
Qed.
End ArrayFacts.

(** ** The forward pass *)

Section ForwardFacts.
Context {num : Type} {SN : Scalar num}.
Context {LState Jac PState WParams : Type}.

Variable self : @HessianRNN num LState Jac WParams.
Variable params : @vec num.
Variable deriv : bool.

Local Abbreviation b := (base self).
Local Abbreviation cell :=
  (forward_cell (PState := PState) self params deriv (W_recs_of b params)).
Local Abbreviation upto := (forward_upto (PState := PState) self params deriv).

Ltac cell_cases :=
  unfold forward_cell, cell_input, external_input;
  repeat match goal with
    | |- context [match nth_error ?l ?i with _ => _ end] =>
        destruct (nth_error l i)
    | |- context [if ?i =? 0 then _ else _] => destruct (i =? 0)
    | |- context [match f_input ?st with _ => _ end] =>
        destruct (f_input st) eqn:?
    | |- context [let '(_, _) := p_call ?p ?ps ?a in _] =>
        destruct (p_call p ps a)
    | |- context [let '(_, _) := activation ?L ?ls ?m in _] =>
        destruct (activation L ls m)
    | |- context [if deriv then _ else _] => destruct deriv
    | |- context [let '(_, _) := d_activation ?L ?ls ?m in _] =>
        destruct (d_activation L ls m)
    end;
  simpl.

Lemma upto_S_layer (s i : nat) (st0 : fstate) :
  upto s (S i) st0 = cell s i (upto s i st0).
Proof. unfold forward_upto. rewrite for_range_S. reflexivity. Qed.

Lemma upto_row_end (s : nat) (st0 : fstate) :
  upto s (n_layers b) st0 = upto (S s) 0 st0.
Proof. unfold forward_upto. rewrite for_range_S. reflexivity. Qed.

Lemma forward_loops_upto (st0 : fstate) :
  forward_loops self params deriv st0 =
  upto (snd (input_shape (f_input st0))) 0 st0.
Proof. reflexivity. Qed.

(** A property that every later cell keeps holds at every later point of
    the sweep. *)
Lemma upto_preserved (Q : fstate -> Prop) (st0 : fstate) (s i : nat) :
  (forall s' i' st, s <= s' -> Q st -> Q (cell s' i' st)) ->
  i <= n_layers b ->
  Q (upto s i st0) ->
  forall s' i',
    s < s' \/ (s = s' /\ i <= i') -> i' <= n_layers b ->
    Q (upto s' i' st0).
Proof.
  intros Hcell Hi HQ.
  assert (Hrow : forall s', s <= s' -> forall i0 i',
             i0 <= i' -> Q (upto s' i0 st0) -> Q (upto s' i' st0)).
  { intros s' Hs' i0 i' Hle H0.
    induction Hle as [|i' Hle IH]; auto.
    rewrite upto_S_layer. apply Hcell; auto. }
  assert (Hstart : forall s', s < s' -> Q (upto s' 0 st0)).
  { intros s' Hs'. induction Hs' as [|s' Hs' IH].
    - rewrite <- upto_row_end. apply (Hrow s (Nat.le_refl s) i); auto.
    - rewrite <- upto_row_end.
      apply (Hrow s' (Nat.lt_le_incl _ _ Hs') 0); auto. lia. }
  intros s' i' [Hlt | [-> Hle]] Hi'.
  - apply (Hrow s' (Nat.lt_le_incl _ _ Hlt) 0); auto. lia.
  - apply (Hrow s' (Nat.le_refl s') i); auto.
Qed.

(** A cell writes one timestep of one layer only. *)
Lemma forward_cell_frame (s i s0 j : nat) (st : fstate) :
  s <> s0 ->
  col (nth j (f_acts (cell s i st)) []) s0 = col (nth j (f_acts st) []) s0.
Proof.
  intros Hs. cell_cases; auto;
    (destruct (Nat.eq_dec i j) as [->|Hij];
     [ destruct (Nat.lt_ge_cases j (length (f_acts st))) as [Hj|Hj];
       [ rewrite nth_upd_same by exact Hj;
         apply col_set_col_other; exact Hs
       | rewrite !(nth_overflow _ _ Hj) by idtac;
         rewrite nth_overflow by (rewrite length_upd; exact Hj);
         reflexivity ]
     | rewrite nth_upd_other by exact Hij; reflexivity ]).
Qed.

(** A plant stays the same object all along the sweep, and an array input
    is never changed. *)
Lemma forward_cell_plant (s i : nat) (st : fstate) (p : Plant)
    (ps : PState) :
  f_input st = InPlant p ps ->
  exists ps', f_input (cell s i st) = InPlant p ps'.
Proof.
  intros Hin. unfold forward_cell, cell_input, external_input. rewrite Hin.
  destruct (nth_error (layers b) i); [|eauto].
  destruct (i =? 0).
  - destruct (p_call p ps _) as [ps' x].
    destruct (activation _ _ _). destruct deriv;
      [destruct (d_activation _ _ _)|]; simpl; eauto.
  - destruct (activation _ _ _). destruct deriv;
      [destruct (d_activation _ _ _)|]; simpl; eauto.
Qed.

(** The log of plant calls only grows at its end. *)
Lemma forward_cell_calls (s i : nat) (st : fstate) (x : mat) :
  nth_error (f_calls st) 0 = Some x ->
  nth_error (f_calls (cell s i st)) 0 = Some x.
Proof.
  intros Hx. cell_cases; auto;
    destruct (f_calls st); simpl in *; congruence.
Qed.

Lemma nth_W_recs (i : nat) :
  i < n_layers b ->
  nth i (W_recs_of b params) None = get_weights b params (i, i).
Proof.
  intros Hi. unfold W_recs_of.
  rewrite (nth_indep _ None (get_weights b params (0, 0)))
    by (rewrite length_map, length_seq; exact Hi).
  rewrite (map_nth (fun i => get_weights b params (i, i))).
  rewrite seq_nth by exact Hi. reflexivity.
Qed.

Lemma last_map_ne {A B : Type} (f : A -> B) (l : list A) (d : A) (e : B) :
  l <> [] -> last (map f l) e = f (last l d).
Proof.
  induction l as [|x l IH]; [congruence|]. intros _.
  destruct l as [|y l]; [reflexivity|].
  change (last (map f (y :: l)) e = f (last (y :: l) d)).
  apply IH. discriminate.
Qed.

Lemma col_py_zeros3_last (B T n : nat) :
  0 < T ->
  col_py (@zeros3 num _ B T n) (Z.of_nat 0 - 1) = zeros2 B n.
Proof.
  intros HT. unfold col_py.
  destruct B as [|B]; [reflexivity|].
  assert (Hs : shape1 (@zeros3 num _ (S B) T n) = T).
  { simpl. unfold zeros2. apply repeat_length. }
  rewrite Hs. unfold py_index.
  replace (0 <=? Z.of_nat 0 - 1)%Z with false by reflexivity.
  destruct (0 <=? Z.of_nat 0 - 1 + Z.of_nat T)%Z eqn:E;
    [|apply Z.leb_gt in E; lia].
  apply col_zeros3. lia.
Qed.


(** C6, as amended.  A two-dimensional input is taken as one sample: an
    array of shape [T, feature] is run as the batch [1, T, feature] of one
    sequence of T timesteps, and forward computes on it exactly what it
    computes on the three-dimensional array input[None, :, :]; an array of
    fewer than two dimensions is rejected. *)
Theorem forward_promotes_single_sample
    (lst : nat -> LState) (m : @mat num) :
  forward (PState := PState) self lst (InArr (A2 m)) params deriv =
    forward self lst (InArr (A3 [m])) params deriv /\
  input_shape (PState := PState) (InArr (A3 [m])) = (1, length m) /\
  (forall a : ndarray,
     ndim a < 2 ->
     forward (PState := PState) self lst (InArr a) params deriv =
       inl IndexError).
Proof.
  repeat split.
  intros a Ha. destruct a; simpl in Ha; try lia; reflexivity.
Qed.

(** C9.  When forward is driven by a plant, over at least one timestep,
    the first call of the plant receives an all-zero array of shape
    [batch, size of the last layer]: the index s-1 = -1 selects the last
    timestep of the output activations, which are freshly zeroed and which
    nothing has written yet. *)
Theorem plant_first_call_zero
    (lst : nat -> LState) (p : Plant) (ps : PState) :
  0 < snd (p_shape p (p_reset p ps)) ->
  shape b <> [] ->
  layers b <> [] ->
  let B := fst (p_shape p (p_reset p ps)) in
  let T := snd (p_shape p (p_reset p ps)) in
  let st0 := forward_init self lst (InPlant p (p_reset p ps)) deriv in
  exists st,
    forward self lst (InPlant p ps) params deriv = inr st /\
    nth_error (f_calls st) 0 = Some (zeros2 B (last (shape b) 0)) /\
    col_py (last (f_acts st0) []) (-1) = col (last (f_acts st0) []) (T - 1) /\
    col (last (f_acts st0) []) (T - 1) = zeros2 B (last (shape b) 0).
Proof.
  intros HT Hshape Hlayers B T st0.
  set (ps0 := p_reset p ps) in *.
  exists (forward_loops self params deriv st0).
  assert (Hin : f_input st0 = InPlant p ps0).
  { unfold st0, forward_init. simpl. destruct (p_shape p ps0). reflexivity. }
  assert (Hlast : last (f_acts st0) [] = zeros3 B T (last (shape b) 0)).
  { unfold st0, forward_init, B, T. simpl (input_shape _).
    destruct (p_shape p ps0) as [B0 T0]. simpl f_acts.
    apply (last_map_ne _ _ 0). exact Hshape. }
  assert (Harg : col_py (last (f_acts st0) []) (Z.of_nat 0 - 1) =
                 zeros2 B (last (shape b) 0)).
  { rewrite Hlast. apply col_py_zeros3_last. exact HT. }
  assert (Hcol : col (last (f_acts st0) []) (T - 1) =
                 zeros2 B (last (shape b) 0)).
  { rewrite Hlast. apply col_zeros3. unfold T. lia. }
  split; [reflexivity|]. split; [|split; [|exact Hcol]].
  2: { rewrite Hcol. exact Harg. }
  rewrite forward_loops_upto, Hin. simpl (snd (input_shape _)).
  assert (Hn : 1 <= n_layers b).
  { unfold n_layers. destruct (shape b); [congruence|simpl; lia]. }
  apply (upto_preserved
           (fun st => nth_error (f_calls st) 0 =
                      Some (zeros2 B (last (shape b) 0)))
           st0 0 1); auto; try lia.
  - intros s' i' st _ HQ. apply forward_cell_calls. exact HQ.
  - rewrite upto_S_layer.
    change (upto 0 0 st0) with st0.
    unfold forward_cell, cell_input, external_input. rewrite Hin.
    destruct (layers b) as [|L ls] eqn:EL; [congruence|]. simpl.
    simpl (Z.of_nat 0 - 1)%Z in *.
    destruct (p_call p ps0 _) as [ps' x] eqn:EC.
    destruct (activation L _ _).
    assert (Hc : f_calls st0 = []).
    { unfold st0, forward_init. destruct (input_shape _). reflexivity. }
    destruct deriv; [destruct (d_activation L _ _)|]; simpl;
      rewrite Hc; simpl; rewrite Harg; reflexivity.
Qed.

End ForwardFacts.

(** ** Error evaluation *)

Section ErrorFacts.
Context {num : Type} {SN : Scalar num}.
Context {LState Jac PState WParams Res : Type}.

Variable super_error :
  (nat -> LState) -> option (@vec num) -> @input num PState ->
  option (@tensor3 num) -> exn + Res.
Variable self : @HessianRNN num LState Jac WParams.

Lemma forward_loops_plant (params : @vec num) (deriv : bool)
    (st0 : fstate) (p : Plant) (ps : PState) :
  f_input st0 = InPlant p ps ->
  exists ps',
    f_input (forward_loops self params deriv st0) = InPlant p ps'.
Proof.
  intros Hin. unfold forward_loops, for_range.
  apply fold_left_inv; [eauto|].
  intros st s _ Hst. apply fold_left_inv; [exact Hst|].
  intros st' i _ [ps' Hst']. eapply forward_cell_plant. exact Hst'.
Qed.

(** C8.  With a plant as inputs, error rejects explicit targets with an
    AssertionError, whatever the plant and the network; without targets it
    runs the forward pass on the plant, asks the plant, as that pass left
    it, for its targets and then for its inputs, and hands both to the base
    class's error. *)
Theorem error_with_plant
    (lst : nat -> LState) (W_arg : option (@vec num)) (p : Plant)
    (ps : PState) (tgt : option (@tensor3 num)) :
  let Wv := match W_arg with None => W (base self) | Some w => w end in
  let st :=
    forward_loops self Wv false
      (forward_init self lst (InPlant p (p_reset p ps)) false) in
  (tgt <> None ->
   error super_error self lst W_arg (InPlant p ps) tgt =
     inl AssertionError) /\
  (tgt = None ->
   forward self lst (InPlant p ps) Wv false = inr st /\
   exists ps',
     f_input st = InPlant p ps' /\
     let '(ps1, t) := p_get_targets p ps' in
     let '(ps2, x) := p_get_inputs p ps1 in
     error super_error self lst W_arg (InPlant p ps) tgt =
       super_error (f_lstates st) (Some Wv) (InArr (A3 x)) (Some t)).
Proof.
  intros Wv st. split.
  - intros Ht. destruct tgt; [reflexivity|congruence].
  - intros ->. split; [reflexivity|].
    destruct (forward_loops_plant Wv false
                (forward_init self lst (InPlant p (p_reset p ps)) false)
                p (p_reset p ps)) as [ps' Hps'].
    { unfold forward_init. simpl. destruct (p_shape p _). reflexivity. }
    fold st in Hps'.
    assert (Hf : forward self lst (InPlant p ps) Wv false = inr st)
      by reflexivity.
    clearbody st.
    exists ps'. split; [exact Hps'|].
    destruct (p_get_targets p ps') as [ps1 t] eqn:Et.
    destruct (p_get_inputs p ps1) as [ps2 x] eqn:Ex.
    unfold error. cbv zeta. fold Wv. rewrite Hf, Hps', Et, Ex.
    reflexivity.
Qed.

End ErrorFacts.

(** ** Construction and the offset table *)

Lemma conn_eqb_eq (a c : conn) : conn_eqb a c = true <-> a = c.
Proof.
  destruct a as [a1 a2], c as [c1 c2]. unfold conn_eqb. simpl.
  rewrite andb_true_iff, !Nat.eqb_eq. split.
  - intros [-> ->]. reflexivity.
  - intros H; inversion H; auto.
Qed.

Lemma dict_set_fresh (d : dict) (k : conn) (v : cuts) :
  (forall c, ~ In (k, c) d) -> dict_set d k v = d ++ [(k, v)].
Proof.
  induction d as [|[k' v'] d IH]; intros Hk; simpl; [reflexivity|].
  destruct (conn_eqb k k') eqn:E.
  - apply conn_eqb_eq in E. subst k'. exfalso. apply (Hk v'). simpl; auto.
  - f_equal. apply IH. intros c Hc. apply (Hk c). simpl; auto.
Qed.

Lemma dict_get_app_fresh (d : dict) (k : conn) (v : cuts) :
  (forall c, ~ In (k, c) d) -> dict_get (d ++ [(k, v)]) k = Some v.
Proof.
  induction d as [|[k' v'] d IH]; intros Hk; simpl.
  - replace (conn_eqb k k) with true; [reflexivity|].
    symmetry. apply conn_eqb_eq. reflexivity.
  - destruct (conn_eqb k k') eqn:E.
    + apply conn_eqb_eq in E. subst k'. exfalso. apply (Hk v'). simpl; auto.
    + apply IH. intros c Hc. apply (Hk c). simpl; auto.
Qed.

Lemma dict_get_app_other (d : dict) (k k' : conn) (v : cuts) :
  k <> k' -> dict_get (d ++ [(k', v)]) k = dict_get d k.
Proof.
  intros Hk. induction d as [|[k0 v0] d IH]; simpl.
  - destruct (conn_eqb k k') eqn:E; [|reflexivity].
    apply conn_eqb_eq in E. congruence.
  - destruct (conn_eqb k k0); auto.
Qed.

Lemma covering_app (d1 d2 : dict) (k : nat) :
  covering (d1 ++ d2) k = covering d1 k + covering d2 k.
Proof. unfold covering. rewrite filter_app, length_app. reflexivity. Qed.

(** Appending a block that starts where the covered range ends extends the
    partition. *)
Lemma partitions_snoc (d : dict) (n w e : nat) (k : conn) :
  partitions d n -> n <= e -> partitions (d ++ [(k, (n, w, e))]) e.
Proof.
  intros Hd Hle i. rewrite covering_app, Hd.
  unfold covering. simpl.
  destruct (n <=? i) eqn:E1, (i <? e) eqn:E2, (i <? n) eqn:E3; simpl;
    try reflexivity;
    apply Nat.leb_le in E1 || apply Nat.leb_gt in E1;
    apply Nat.ltb_lt in E2 || apply Nat.ltb_ge in E2;
    apply Nat.ltb_lt in E3 || apply Nat.ltb_ge in E3; lia.
Qed.

(** What a partition says block by block: an index below [n] lies in some
    block, no block reaches [n] or beyond, and two entries of the table
    never share an index. *)
Lemma partitions_cover (d : dict) (n : nat) :
  partitions d n ->
  forall k, k < n <-> exists e, In e d /\ in_block k (snd e) = true.
Proof.
  intros Hd k. specialize (Hd k). unfold covering in Hd. split.
  - intros Hk. apply Nat.ltb_lt in Hk. rewrite Hk in Hd.
    destruct (filter (fun e => in_block k (snd e)) d) as [|e l] eqn:E;
      [discriminate|].
    exists e.
    apply (proj1 (filter_In (fun e => in_block k (snd e)) e d)).
    rewrite E. simpl; auto.
  - intros [e He].
    apply (proj2 (filter_In (fun e => in_block k (snd e)) e d)) in He.
    destruct (k <? n) eqn:E; [apply Nat.ltb_lt; exact E|].
    destruct (filter (fun e => in_block k (snd e)) d); [contradiction|].
    discriminate.
Qed.

Lemma partitions_disjoint (d : dict) (n : nat) :
  partitions d n ->
  forall i j ei ej k,
    nth_error d i = Some ei -> nth_error d j = Some ej -> i <> j ->
    ~ (in_block k (snd ei) = true /\ in_block k (snd ej) = true).
Proof.
  intros Hd i j ei ej k Hi Hj Hij [Bi Bj].
  assert (Hle : covering d k <= 1).
  { rewrite Hd. destruct (k <? n); lia. }
  clear Hd. unfold covering in Hle.
  revert i j Hi Hj Hij Hle.
  induction d as [|e d IH]; intros [|i] [|j] Hi Hj Hij Hle; simpl in *;
    try discriminate; try congruence.
  - inversion Hi; subst e. rewrite Bi in Hle. simpl in Hle.
    apply nth_error_In in Hj.
    assert (In ej (filter (fun e => in_block k (snd e)) d))
      by (apply (proj2 (filter_In _ ej d)); auto).
    destruct (filter (fun e => in_block k (snd e)) d);
      [contradiction|simpl in Hle; lia].
  - inversion Hj; subst e. rewrite Bj in Hle. simpl in Hle.
    apply nth_error_In in Hi.
    assert (In ei (filter (fun e => in_block k (snd e)) d))
      by (apply (proj2 (filter_In _ ei d)); auto).
    destruct (filter (fun e => in_block k (snd e)) d);
      [contradiction|simpl in Hle; lia].
  - apply (IH i j); auto.
    destruct (in_block k (snd e)); simpl in Hle; lia.
Qed.

Lemma sum_sizes_app (a c : list (nat * nat)) :
  sum_sizes (a ++ c) = sum_sizes a + sum_sizes c.
Proof.
  induction a as [|x a IH]; simpl; [reflexivity|]. rewrite IH. lia.
Qed.

Lemma existsb_false_nth (rl : list bool) (l : nat) :
  existsb (fun x => x) rl = false -> nth l rl false = false.
Proof.
  revert l; induction rl as [|x rl IH]; intros [|l] H; simpl in *; auto;
    apply orb_false_iff in H; destruct H; auto.
Qed.

Lemma rec_sizes_S (shp : list nat) (rl : list bool) (start j : nat) :
  rec_sizes shp rl start (S j) =
  rec_sizes shp rl start j +
  (if nth (start + j) rl false
   then (nth (start + j) shp 0 + 1) * nth (start + j) shp 0 else 0).
Proof.
  unfold rec_sizes. rewrite seq_S, filter_app, map_app, sum_sizes_app.
  simpl. destruct (nth (start + j) rl false); simpl; lia.
Qed.

(** The loop of compute_offsets appends one block per recurrent layer, in
    layer order and from the offset it starts with, and leaves the other
    entries alone; after a table that partitions [0, off), the result
    partitions the longer range. *)
Lemma rec_offsets_loop (shp : list nat) (rl : list bool) (off : nat)
    (d : dict) (len : nat) :
  (forall l c, ~ In ((l, l), c) d) ->
  let od := fold_left (rec_offset_step shp rl) (seq 0 len) (off, d) in
  (partitions d off -> partitions (snd od) (fst od)) /\
  fst od = off + rec_sizes shp rl 0 len /\
  (forall l c, In ((l, l), c) (snd od) -> l < len) /\
  (forall l, l < len -> nth l rl false = true ->
     dict_get (snd od) (l, l) =
       Some (off + rec_sizes shp rl 0 l,
             off + rec_sizes shp rl 0 l + nth l shp 0 * nth l shp 0,
             off + rec_sizes shp rl 0 l + (nth l shp 0 + 1) * nth l shp 0)) /\
  (forall k, (forall l, k <> (l, l)) -> dict_get (snd od) k = dict_get d k).
Proof.
  intros Hfresh. induction len as [|len IH].
  - simpl. repeat split; auto; try (intros; lia).
    intros l c Hin. exfalso. apply (Hfresh l c Hin).
  - cbv zeta in *.
    destruct (fold_left (rec_offset_step shp rl) (seq 0 len) (off, d))
      as [o d'] eqn:E.
    simpl in IH. destruct IH as (Hp & Ho & Hk & Hget & Hff).
    rewrite seq_S, fold_left_app, E. simpl (0 + len).
    cbn [fold_left]. unfold rec_offset_step.
    rewrite rec_sizes_S. simpl (0 + len).
    assert (Hnew : forall c, ~ In ((len, len), c) d').
    { intros c Hc. apply Hk in Hc. lia. }
    rewrite (dict_set_fresh _ _ _ Hnew).
    destruct (nth len rl false) eqn:Er; cbn [fst snd].
    + repeat split.
      * intros Hd. apply partitions_snoc; [exact (Hp Hd)|lia].
      * lia.
      * intros l c Hin. apply in_app_or in Hin. destruct Hin as [Hin|Hin].
        -- apply Hk in Hin. lia.
        -- simpl in Hin. destruct Hin as [Hin|[]]. inversion Hin. lia.
      * intros l Hl Hr. destruct (Nat.eq_dec l len) as [->|Hne].
        -- rewrite dict_get_app_fresh by exact Hnew. subst o. reflexivity.
        -- rewrite dict_get_app_other by congruence.
           apply Hget; [lia|exact Hr].
      * intros k Hk'. rewrite dict_get_app_other by apply Hk'.
        apply Hff. exact Hk'.
    + repeat split; auto.
      * lia.
      * intros l c Hin. apply Hk in Hin. lia.
      * intros l Hl Hr. destruct (Nat.eq_dec l len) as [->|Hne];
          [congruence|]. apply Hget; [lia|exact Hr].
Qed.

Lemma default_rec_layers_length (shp : list nat) :
  2 <= length shp -> length (default_rec_layers shp) = length shp.
Proof.
  intros H. unfold default_rec_layers.
  rewrite !length_app, repeat_length. simpl. lia.
Qed.

Lemma default_rec_layers_nth (shp : list nat) (l : nat) :
  2 <= length shp ->
  nth l (default_rec_layers shp) false =
    (0 <? l) && (l <? length shp - 1).
Proof.
  intros H. unfold default_rec_layers.
  destruct l as [|l]; [reflexivity|].
  change (nth (S l) ([false] ++ repeat true (length shp - 2) ++ [false])
              false)
    with (nth l (repeat true (length shp - 2) ++ [false]) false).
  simpl (0 <? S l). rewrite andb_true_l.
  destruct (Nat.lt_ge_cases l (length shp - 2)) as [Hl|Hl].
  - rewrite app_nth1 by (rewrite repeat_length; exact Hl).
    rewrite nth_repeat_lt by exact Hl.
    symmetry. apply Nat.ltb_lt. lia.
  - rewrite app_nth2 by (rewrite repeat_length; exact Hl).
    rewrite repeat_length.
    replace (S l <? length shp - 1) with false
      by (symmetry; apply Nat.ltb_ge; lia).
    destruct (l - (length shp - 2)) as [|[|k]]; reflexivity.
Qed.

Lemma filter_none {A : Type} (f : A -> bool) (l : list A) :
  (forall x, f x = false) -> filter f l = [].
Proof.
  intros H. induction l as [|x l IH]; simpl; [reflexivity|].
  rewrite H. exact IH.
Qed.

Section ConstructionFacts.
Context {num : Type} {SN : Scalar num}.
Context {LState Jac WParams Kwargs : Type}.

Variable super_compute_offsets :
  @HessianFF num LState Jac WParams -> @HessianFF num LState Jac WParams.
Variable super_setup :
  list nat -> Kwargs -> exn + @HessianFF num LState Jac WParams.
Variable kw_load_weights : Kwargs -> option (@vec num).

Local Abbreviation construct :=
  (init super_compute_offsets super_setup kw_load_weights).

Lemma rec_layers_compute_offsets (self : @HessianRNN num LState Jac WParams) :
  rec_layers (compute_offsets super_compute_offsets self) = rec_layers self.
Proof. reflexivity. Qed.

(** C7.  A recurrence list whose length is not the number of layers makes
    the constructor raise its ValueError before it has called anything of
    the base class, so before any weight is allocated or offset computed;
    a list of the right length is stored as it was given.  Without a list,
    and with at least two layers, the default has one flag per layer, true
    exactly for the layers strictly between the first and the last, and the
    construction goes through whenever the base class's does. *)
Theorem init_checks_rec_layers
    (shp : list nat) (sd : num) (rec_arg : option (list bool))
    (wp : WParams) (kw : Kwargs) :
  let rl :=
    match rec_arg with
    | None => default_rec_layers shp
    | Some r => r
    end in
  (length rl <> length shp ->
   construct shp sd rec_arg wp kw =
     ([], inl (ValueError "Must define recurrence for each layer"))) /\
  (rec_arg = None -> 2 <= length shp ->
   length rl = length shp /\
   forall l, nth l rl false = (0 <? l) && (l <? length shp - 1)) /\
  (length rl = length shp ->
   forall b0, super_setup shp kw = inr b0 ->
   exists self,
     snd (construct shp sd rec_arg wp kw) = inr self /\
     rec_layers self = rl /\
     hd Call_super_init (fst (construct shp sd rec_arg wp kw)) =
       Call_super_init).
Proof.
  intros rl. repeat split.
  - intros Hlen. unfold init. fold rl.
    replace (length rl =? length shp) with false
      by (symmetry; apply Nat.eqb_neq; exact Hlen).
    reflexivity.
  - subst rl. rewrite H. apply default_rec_layers_length. exact H0.
  - intros l. subst rl. rewrite H. apply default_rec_layers_nth. exact H0.
  - intros Hlen b0 Hb0. unfold init. fold rl.
    rewrite Hlen, Nat.eqb_refl. simpl negb. cbv iota.
    unfold HessianFF_init. rewrite Hb0.
    destruct (kw_load_weights kw);
      [|destruct (existsb (fun x => x) rl)];
      (eexists; repeat split; reflexivity).
Qed.

(** X3.  The partition of the parameter vector, for a network whose weights
    are not loaded: when the base class leaves a table that partitions its own
    parameter vector and holds no self-connection, and init_weights returns
    one slot per weight and bias, the finished object's table partitions
    its whole parameter vector; every recurrent layer has its block in the
    tail, in layer order, from the length the vector had before the
    recurrent weights were added; the feedforward entries stay. *)
Lemma compute_offsets_partition_fresh
    (shp : list nat) (sd : num) (rec_arg : option (list bool))
    (wp : WParams) (kw : Kwargs)
    (b0 : @HessianFF num LState Jac WParams)
    (self : @HessianRNN num LState Jac WParams) :
  super_setup shp kw = inr b0 ->
  kw_load_weights kw = None ->
  let b1 := super_compute_offsets b0 in
  partitions (offsets b1) (length (W b1)) ->
  (forall l c, ~ In ((l, l), c) (offsets b1)) ->
  (forall shapes, length (init_weights b1 shapes wp) = sum_sizes shapes) ->
  snd (construct shp sd rec_arg wp kw) = inr self ->
  partitions (offsets (base self)) (length (W (base self))) /\
  (forall l, l < n_layers (base self) ->
     nth l (rec_layers self) false = true ->
     let n := nth l (shape (base self)) 0 in
     let o := length (W b1)
              + rec_sizes (shape (base self)) (rec_layers self) 0 l in
     dict_get (offsets (base self)) (l, l) =
       Some (o, o + n * n, o + (n + 1) * n)) /\
  (forall k, (forall l, k <> (l, l)) ->
     dict_get (offsets (base self)) k = dict_get (offsets b1) k).
Proof.
  intros Hb0 Hkw b1 Hpart Hfresh Hinit Hself.
  unfold init in Hself.
  set (rl := match rec_arg with
             | None => default_rec_layers shp
             | Some r => r
             end) in *.
  destruct (negb (length rl =? length shp)); [discriminate|].
  unfold HessianFF_init in Hself. rewrite Hb0, Hkw in Hself.
  unfold compute_offsets in Hself. cbn [base rec_layers] in Hself.
  fold b1 in Hself.
  destruct (rec_offsets_loop (shape b1) rl (length (W b1)) (offsets b1)
              (n_layers b1) Hfresh) as (Hp & Ho & _ & Hget & Hff).
  cbv zeta in Hp, Ho, Hget, Hff. specialize (Hp Hpart).
  set (od := fold_left (rec_offset_step (shape b1) rl)
               (seq 0 (n_layers b1)) (length (W b1), offsets b1)) in *.
  assert (Hsizes : rec_sizes (shape b1) rl 0 (n_layers b1) =
                   sum_sizes (rec_shapes (set_offsets b1 (snd od)) rl))
    by reflexivity.
  destruct (existsb (fun x => x) rl) eqn:Eany;
    cbn [snd] in Hself; inversion Hself; subst self; clear Hself;
    cbn [base rec_layers set_W set_offsets offsets W shape n_layers].
  - repeat split.
    + rewrite length_app.
      change (init_weights (set_offsets b1 (snd od)))
        with (init_weights b1).
      rewrite Hinit, <- Hsizes, <- Ho. exact Hp.
    + intros l Hl Hr. apply Hget; assumption.
    + exact Hff.
  - repeat split.
    + assert (Hz : rec_sizes (shape b1) rl 0 (n_layers b1) = 0).
      { unfold rec_sizes.
        replace (filter (fun l => nth l rl false) (seq 0 (n_layers b1)))
          with (@nil nat); [reflexivity|].
        symmetry. apply filter_none.
        intros l. apply existsb_false_nth. exact Eany. }
      rewrite Hz, Nat.add_0_r in Ho. rewrite <- Ho. exact Hp.
    + intros l Hl Hr. apply Hget; assumption.
    + exact Hff.
Qed.

(** X4.  With loaded weights nothing is appended to the parameter vector, yet
    the blocks of the recurrent layers are still laid out from its length:
    whatever vector the base class stores, every recurrent block starts at
    or after its end. *)
Lemma loaded_weights_recurrent_blocks_outside
    (shp : list nat) (sd : num) (rec_arg : option (list bool))
    (wp : WParams) (kw : Kwargs) (w : @vec num)
    (b0 : @HessianFF num LState Jac WParams)
    (self : @HessianRNN num LState Jac WParams) :
  super_setup shp kw = inr b0 ->
  kw_load_weights kw = Some w ->
  (forall l c, ~ In ((l, l), c) (offsets (super_compute_offsets b0))) ->
  snd (construct shp sd rec_arg wp kw) = inr self ->
  W (base self) = W (super_compute_offsets b0) /\
  forall l, l < n_layers (base self) ->
    nth l (rec_layers self) false = true ->
    exists o we be,
      dict_get (offsets (base self)) (l, l) = Some (o, we, be) /\
      length (W (base self)) <= o.
Proof.
  intros Hb0 Hkw Hfresh Hself.
  unfold init in Hself.
  set (rl := match rec_arg with
             | None => default_rec_layers shp
             | Some r => r
             end) in *.
  destruct (negb (length rl =? length shp)); [discriminate|].
  unfold HessianFF_init in Hself. rewrite Hb0, Hkw in Hself.
  cbn [snd] in Hself. inversion Hself; subst self; clear Hself.
  unfold compute_offsets.
  cbn [base rec_layers set_offsets offsets W shape n_layers].
  split; [reflexivity|].
  intros l Hl Hr.
  destruct (rec_offsets_loop (shape (super_compute_offsets b0)) rl
              (length (W (super_compute_offsets b0)))
              (offsets (super_compute_offsets b0))
              (n_layers (super_compute_offsets b0)) Hfresh)
    as (_ & _ & _ & Hget & _).
  cbv zeta in Hget. do 3 eexists.
  split; [apply (Hget l Hl Hr)|lia].
Qed.

End ConstructionFacts.

(** ** Slices of the gradient buffer *)

Lemma nth_error_zip_ip {A B : Type} (f : A -> B -> A) (a : list A)
    (c : list B) (k : nat) :
  nth_error (zip_ip f a c) k =
    match nth_error a k with
    | None => None
    | Some x =>
        match nth_error c k with
        | Some y => Some (f x y)
        | None => Some x
        end
    end.
Proof.
  revert c k; induction a as [|x a IH]; intros [|y c] [|k]; simpl; auto.
  all: try (destruct (nth_error a k); reflexivity).
Qed.

(* an assignment of as many entries as the slice has replaces it *)
Lemma zip_ip_assign {A : Type} (a c : list A) :
  length a = length c -> zip_ip (fun _ y => y) a c = c.
Proof.
  revert c; induction a as [|x a IH]; intros [|y c] H; simpl in *;
    try discriminate; auto.
  f_equal. apply IH. lia.
Qed.

Section SliceFacts.
Context {num : Type} {SN : Scalar num}.

Lemma nth_error_slice (v : @vec num) (lo hi k : nat) :
  nth_error (slice v lo hi) k =
    if k <? hi - lo then nth_error v (lo + k) else None.
Proof.
  unfold slice. rewrite nth_error_firstn, nth_error_skipn. reflexivity.
Qed.

Lemma length_slice_upd (f : num -> num -> num) (v : @vec num)
    (lo hi : nat) (x : vec) :
  length (slice_upd f v lo hi x) = length v.
Proof.
  unfold slice_upd, slice.
  rewrite !length_app, length_zip_ip, !length_firstn, !length_skipn. lia.
Qed.

(** An update of a slice, index by index. *)
Lemma nth_error_slice_upd (f : num -> num -> num) (v : @vec num)
    (lo hi : nat) (x : vec) (k : nat) :
  nth_error (slice_upd f v lo hi x) k =
    if (lo <=? k) && (k <? hi) then
      match nth_error v k with
      | None => None
      | Some a =>
          match nth_error x (k - lo) with
          | Some y => Some (f a y)
          | None => Some a
          end
      end
    else nth_error v k.
Proof.
  destruct (Nat.le_gt_cases (length v) k) as [Hk|Hk].
  - (* beyond the end of the buffer nothing is there *)
    assert (H1 : nth_error v k = None) by (apply nth_error_None; exact Hk).
    assert (H2 : nth_error (slice_upd f v lo hi x) k = None).
    { apply nth_error_None. rewrite length_slice_upd. exact Hk. }
    rewrite H1, H2. destruct ((lo <=? k) && (k <? hi)); reflexivity.
  - unfold slice_upd. rewrite nth_error_app, length_firstn.
    rewrite (Nat.min_comm lo).
    destruct (k <? Nat.min (length v) lo) eqn:E1.
    + apply Nat.ltb_lt in E1. rewrite nth_error_firstn.
      replace (k <? lo) with true by (symmetry; apply Nat.ltb_lt; lia).
      replace (lo <=? k) with false by (symmetry; apply Nat.leb_gt; lia).
      reflexivity.
    + apply Nat.ltb_ge in E1.
      assert (Hlo : lo <= k) by lia.
      replace (Nat.min (length v) lo) with lo by lia.
      replace (lo <=? k) with true by (symmetry; apply Nat.leb_le; lia).
      rewrite andb_true_l.
      rewrite nth_error_app, length_zip_ip.
      assert (Hlen : length (slice v lo hi) = Nat.min (hi - lo) (length v - lo)).
      { unfold slice. rewrite length_firstn, length_skipn. reflexivity. }
      rewrite Hlen.
      destruct (k <? hi) eqn:E2.
      * apply Nat.ltb_lt in E2.
        replace (k - lo <? Nat.min (hi - lo) (length v - lo)) with true
          by (symmetry; apply Nat.ltb_lt; lia).
        rewrite nth_error_zip_ip, nth_error_slice.
        replace (k - lo <? hi - lo) with true
          by (symmetry; apply Nat.ltb_lt; lia).
        replace (lo + (k - lo)) with k by lia. reflexivity.
      * apply Nat.ltb_ge in E2.
        replace (k - lo <? Nat.min (hi - lo) (length v - lo)) with false
          by (symmetry; apply Nat.ltb_ge; lia).
        rewrite nth_error_skipn. f_equal. lia.
Qed.

(** An update of one slice leaves every slice apart from it as it was. *)
Lemma slice_slice_upd_other (f : num -> num -> num) (v : @vec num)
    (lo hi o e : nat) (x : vec) :
  hi <= o \/ e <= lo ->
  slice (slice_upd f v lo hi x) o e = slice v o e.
Proof.
  intros Hd. apply nth_error_ext. intros k.
  rewrite !nth_error_slice.
  destruct (k <? e - o) eqn:E; [|reflexivity].
  apply Nat.ltb_lt in E. rewrite nth_error_slice_upd.
  replace ((lo <=? o + k) && (o + k <? hi)) with false; [reflexivity|].
  symmetry. apply andb_false_iff.
  destruct Hd; [right; apply Nat.ltb_ge|left; apply Nat.leb_gt]; lia.
Qed.

(** The updated slice itself. *)
Lemma slice_slice_upd_same (f : num -> num -> num) (v : @vec num)
    (lo hi : nat) (x : vec) :
  slice (slice_upd f v lo hi x) lo hi = zip_ip f (slice v lo hi) x.
Proof.
  apply nth_error_ext. intros k.
  rewrite nth_error_zip_ip, !nth_error_slice.
  destruct (k <? hi - lo) eqn:E; [|reflexivity].
  apply Nat.ltb_lt in E. rewrite nth_error_slice_upd.
  replace ((lo <=? lo + k) && (lo + k <? hi)) with true.
  - replace (lo + k - lo) with k by lia. reflexivity.
  - symmetry. apply andb_true_iff.
    split; [apply Nat.leb_le|apply Nat.ltb_lt]; lia.
Qed.

End SliceFacts.

(** ** The backward sweeps *)

Lemma for_range_down_split {St : Type} (n k : nat) (body : nat -> St -> St)
    (st : St) :
  k < n ->
  for_range_down n body st =
  fold_left (fun st i => body i st) (rev (seq 0 k))
    (body k
       (fold_left (fun st i => body i st) (rev (seq (S k) (n - S k))) st)).
Proof.
  intros Hk. unfold for_range_down.
  replace n with (k + (1 + (n - S k))) at 1 by lia.
  rewrite seq_app, seq_app, !rev_app_distr, !fold_left_app.
  simpl (0 + k). replace (k + 1) with (S k) by lia.
  reflexivity.
Qed.

Section BackwardFacts.
Context {num : Type} {SN : Scalar num}.
Context {LState Jac WParams : Type}.

Variable self : @HessianRNN num LState Jac WParams.
Local Abbreviation b := (base self).

(* the block of the recurrent connection under study *)
Variables (l0 o0 we0 be0 : nat).
Hypothesis table : table_ok (offsets b).
Hypothesis entry : dict_get (offsets b) (l0, l0) = Some (o0, we0, be0).

Lemma entry_wf : o0 <= we0 <= be0.
Proof. exact (proj1 table _ _ entry). Qed.

(** The feedforward updates of a layer stay clear of the recurrent block. *)
Lemma ff_error_grad_frame (deltas : list mat) (s l : nat) (err0 : mat)
    (grad : vec) (o e : nat) :
  (forall post, In post (conns b l) -> (l, post) <> (l0, l0)) ->
  o0 <= o -> e <= be0 ->
  slice (snd (ff_error_grad b deltas s l err0 grad)) o e = slice grad o e.
Proof.
  intros Hkeys Ho He. unfold ff_error_grad.
  apply (fold_left_inv
           (fun eg : mat * vec => slice (snd eg) o e = slice grad o e)).
  - reflexivity.
  - intros [err g] post Hpost Hg. simpl in Hg.
    destruct (dict_get (offsets b) (l, post)) as [[[o' w'] e']|] eqn:E;
      [|exact Hg].
    simpl. rewrite <- Hg.
    pose proof (proj1 table _ _ E) as Hwf. simpl in Hwf.
    pose proof (proj2 table _ _ _ _ (Hkeys post Hpost) E entry) as Hap.
    simpl in Hap. unfold slice_add.
    rewrite !slice_slice_upd_other; [reflexivity| |]; lia.
Qed.

Lemma rec_grad_frame (s l : nat) (delta : mat) (grad : vec) (o e : nat) :
  l <> l0 -> o0 <= o -> e <= be0 ->
  slice (rec_grad self s l delta grad) o e = slice grad o e.
Proof.
  intros Hl Ho He. unfold rec_grad.
  destruct (nth l (rec_layers self) false); [|reflexivity].
  destruct (dict_get (offsets b) (l, l)) as [[[o' w'] e']|] eqn:E;
    [|reflexivity].
  pose proof (proj1 table _ _ E) as Hwf. simpl in Hwf.
  assert (Hk : (l, l) <> (l0, l0)) by congruence.
  pose proof (proj2 table _ _ _ _ Hk E entry) as Hap. simpl in Hap.
  destruct (0 <? s); unfold slice_add, slice_set;
    apply slice_slice_upd_other; lia.
Qed.

(** What the recurrent step writes into its own block. *)
Lemma rec_grad_own (s : nat) (delta : mat) (grad : vec) :
  nth l0 (rec_layers self) false = true ->
  if 0 <? s then
    slice (rec_grad self s l0 delta grad) o0 we0 =
      vadd_ip (slice grad o0 we0)
        (outer_sum b (os_activation b l0 (s - 1)) delta) /\
    slice (rec_grad self s l0 delta grad) we0 be0 = slice grad we0 be0
  else
    slice (rec_grad self s l0 delta grad) we0 be0 =
      zip_ip (fun _ y => y) (slice grad we0 be0) (colsum delta) /\
    slice (rec_grad self s l0 delta grad) o0 we0 = slice grad o0 we0.
Proof.
  intros Hr. unfold rec_grad. rewrite Hr, entry.
  destruct (0 <? s); unfold slice_add, slice_set; split;
    try apply slice_slice_upd_same;
    apply slice_slice_upd_other; lia.
Qed.

Lemma error_of_frame (W_recs : list (option (mat * vec))) (s l : nat)
    (st : gstate) (o e : nat) :
  (forall post, In post (conns b l) -> (l, post) <> (l0, l0)) ->
  o0 <= o -> e <= be0 ->
  slice (snd (error_of self W_recs s l st)) o e = slice (g_grad st) o e.
Proof.
  intros Hkeys Ho He. unfold error_of.
  destruct (l =? n_layers b - 1); [reflexivity|].
  destruct (ff_error_grad b (g_deltas st) s l _ (g_grad st))
    as [err grad] eqn:E.
  change grad with (snd (err, grad)). rewrite <- E.
  apply ff_error_grad_frame; assumption.
Qed.

Lemma calc_grad_loops_split (s l : nat) :
  s < shape1 (inputs b) -> l < n_layers b ->
  let cell := calc_grad_cell self (W_recs_of b (W b)) in
  calc_grad_loops self =
  fold_left (fun st s' => for_range_down (n_layers b) (cell s') st)
    (rev (seq 0 s))
    (fold_left (fun st l' => cell s l' st) (rev (seq 0 l))
       (cell s l (calc_grad_upto self s l))).
Proof.
  intros Hs Hl cell. unfold calc_grad_loops, calc_grad_upto.
  rewrite (for_range_down_split _ s) by exact Hs.
  rewrite (for_range_down_split (n_layers b) l) by exact Hl.
  reflexivity.
Qed.


End BackwardFacts.

(** ** The Gauss-Newton product *)

Section CurvatureFacts.
Context {num : Type} {SN : Scalar num}.
Context {LState Jac WParams : Type}.

Variable self : @HessianRNN num LState Jac WParams.
Local Abbreviation b := (base self).

Lemma length_deltas_of (L : Nonlinearity) (J : Jac) (err : mat) (l : nat)
    (deltas : list mat) (sds : list (option mat)) :
  length (fst (deltas_of b L J err l deltas sds)) = length deltas.
Proof.
  unfold deltas_of. destruct (negb (stateful L)); simpl; apply length_upd.
Qed.

Lemma R_backward_cell_length (damping : num) (R : rfstate)
    (W_recs : list (option (mat * vec))) (s l : nat) (st : rbstate) :
  length (R_deltas (R_backward_cell self damping R W_recs s l st)) =
  length (R_deltas st).
Proof.
  unfold R_backward_cell.
  destruct (nth_error (layers b) l) as [L|]; [|reflexivity].
  destruct (nth_error (nth l (d_activations b) []) s) as [J|];
    [|reflexivity].
  destruct (R_error_of self R W_recs s l st) as [err Gv].
  pose proof (length_deltas_of L J err l (R_deltas st) (Rb_states st)) as H.
  destruct (deltas_of b L J err l _ _) as [deltas states]. simpl in *.
  rewrite length_upd. exact H.
Qed.

Lemma R_backward_upto_length (damping : num) (R : rfstate) (s l : nat)
    (Gv0 : vec) :
  length (R_deltas (R_backward_upto self damping R s l
                      (R_backward_init self Gv0))) = n_layers b.
Proof.
  unfold R_backward_upto.
  apply (fold_left_inv (fun st => length (R_deltas st) = n_layers b)).
  - apply (fold_left_inv (fun st => length (R_deltas st) = n_layers b)).
    + unfold R_backward_init, n_layers. simpl. apply length_map.
    + intros st s' _ Hst. unfold for_range_down.
      apply (fold_left_inv (fun st => length (R_deltas st) = n_layers b));
        [exact Hst|].
      intros st' l' _ Hst'. rewrite R_backward_cell_length. exact Hst'.
  - intros st l' _ Hst. rewrite R_backward_cell_length. exact Hst.
Qed.

Lemma R_backward_split (damping : num) (R : rfstate) (Gv0 : vec)
    (s l : nat) :
  s < shape1 (inputs b) -> l < n_layers b ->
  let cell := R_backward_cell self damping R (W_recs_of b (W b)) in
  R_backward self damping R Gv0 =
  fold_left (fun st s' => for_range_down (n_layers b) (cell s') st)
    (rev (seq 0 s))
    (fold_left (fun st l' => cell s l' st) (rev (seq 0 l))
       (cell s l
          (R_backward_upto self damping R s l (R_backward_init self Gv0)))).
Proof.
  intros Hs Hl cell. unfold R_backward, R_backward_upto.
  rewrite (for_range_down_split _ s) by exact Hs.
  rewrite (for_range_down_split (n_layers b) l) by exact Hl.
  reflexivity.
Qed.

(** C5.  In the backward sweep of calc_G, at every timestep s and layer l
    the loops reach, the R_delta the body leaves for the layer is the one
    it has just computed from the error plus J_dot(d_output, damping *
    struc_damping * R_inputs[l][:, s]); d_output is the whole Jacobian of a
    stateless layer and, of a stateful one, its d_output block alone. *)
Theorem structural_damping_added
    (damping : num) (R : rfstate) (Gv0 : vec) (s l : nat)
    (L : Nonlinearity) (J : Jac) :
  s < shape1 (inputs b) ->
  l < n_layers b ->
  nth_error (layers b) l = Some L ->
  nth_error (nth l (d_activations b) []) s = Some J ->
  let W_recs := W_recs_of b (W b) in
  let cell := R_backward_cell self damping R W_recs in
  let st := R_backward_upto self damping R s l (R_backward_init self Gv0) in
  let R_error := fst (R_error_of self R W_recs s l st) in
  let R_delta :=
    if stateful L then
      J_dot b (jac_block b J 0)
        (madd_ip (the_mat (nth l (Rb_states st) None))
                 (J_dot b (jac_block b J 2) R_error true))
        true
    else J_dot b J R_error true in
  let d_output := if stateful L then jac_block b J 2 else J in
  (* [st] is the state the body starts from in the run *)
  R_backward self damping R Gv0 =
    fold_left (fun st s' => for_range_down (n_layers b) (cell s') st)
      (rev (seq 0 s))
      (fold_left (fun st l' => cell s l' st) (rev (seq 0 l)) (cell s l st)) /\
  nth l (R_deltas (cell s l st)) [] =
    madd_ip R_delta
      (J_dot b d_output
         (mscale (nmul damping (struc_damping self))
                 (col (nth l (R_inputs R) []) s))
         false).
Proof.
  intros Hs Hl HL HJ W_recs cell st R_error R_delta d_output.
  split; [apply R_backward_split; assumption|].
  assert (Hlen : l < length (R_deltas st)).
  { unfold st. rewrite R_backward_upto_length. exact Hl. }
  subst cell. unfold R_backward_cell. rewrite HL, HJ.
  subst R_error.
  destruct (R_error_of self R W_recs s l st) as [err Gv]. simpl fst in *.
  unfold deltas_of, d_output_of, struc_damp.
  subst R_delta d_output.
  destruct (stateful L); simpl;
    rewrite !nth_upd_same by (rewrite ?length_upd; exact Hlen);
    reflexivity.
Qed.

Lemma calc_G_fresh (h : store) (v : loc) (damping : num) :
  v < next h ->
  snd (calc_G self h v damping None) = next h /\
  returned (calc_G self h v damping None) =
    calc_G_value self (load h v) damping (zeros (length (W b))).
Proof.
  intros Hv. split; [reflexivity|].
  assert (E : (v =? next h) = false) by (apply Nat.eqb_neq; lia).
  unfold returned, calc_G, calc_G_value, alloc, write, load. simpl.
  rewrite !Nat.eqb_refl, !E. reflexivity.
Qed.

Lemma calc_G_output (h : store) (v o : loc) (damping : num) :
  o <> v ->
  snd (calc_G self h v damping (Some o)) = o /\
  returned (calc_G self h v damping (Some o)) =
    calc_G_value self (load h v) damping (zeros_like (load h o)) /\
  forall l, l <> o -> load (fst (calc_G self h v damping (Some o))) l =
                      load h l.
Proof.
  intros Hv. split; [reflexivity|].
  assert (E : (v =? o) = false) by (apply Nat.eqb_neq; congruence).
  unfold returned, calc_G, calc_G_value, write, load. simpl.
  rewrite !Nat.eqb_refl, !E. split; [reflexivity|].
  intros l Hl. apply Nat.eqb_neq in Hl. rewrite Hl. reflexivity.
Qed.

Lemma zeros_like_length (x : @vec num) : zeros_like x = zeros (length x).
Proof.
  induction x as [|a x IH]; simpl; [reflexivity|].
  unfold zeros in *. simpl. f_equal. exact IH.
Qed.


Lemma length_ff_error_grad (deltas : list mat) (s l : nat) (err0 : mat)
    (grad : vec) :
  length (snd (ff_error_grad b deltas s l err0 grad)) = length grad.
Proof.
  unfold ff_error_grad.
  apply (fold_left_inv
           (fun eg : mat * vec => length (snd eg) = length grad));
    [reflexivity|].
  intros [err g] post _ Hg. simpl in Hg.
  destruct (dict_get (offsets b) (l, post)) as [[[o w] e]|]; [|exact Hg].
  simpl. unfold slice_add. rewrite !length_slice_upd. exact Hg.
Qed.

Lemma length_rec_grad (s l : nat) (delta : mat) (grad : vec) :
  length (rec_grad self s l delta grad) = length grad.
Proof.
  unfold rec_grad.
  destruct (nth l (rec_layers self) false); [|reflexivity].
  destruct (dict_get (offsets b) (l, l)) as [[[o w] e]|]; [|reflexivity].
  destruct (0 <? s); unfold slice_add, slice_set; apply length_slice_upd.
Qed.

Lemma length_R_backward (damping : num) (R : rfstate) (Gv0 : vec) :
  length (b_Gv (R_backward self damping R Gv0)) = length Gv0.
Proof.
  unfold R_backward, for_range_down.
  apply (fold_left_inv (fun st => length (b_Gv st) = length Gv0));
    [reflexivity|].
  intros st s _ Hst.
  apply (fold_left_inv (fun st => length (b_Gv st) = length Gv0));
    [exact Hst|].
  intros st' l _ Hst'. unfold R_backward_cell.
  destruct (nth_error (layers b) l) as [L|]; [|exact Hst'].
  destruct (nth_error (nth l (d_activations b) []) s) as [J|];
    [|exact Hst'].
  unfold R_error_of.
  destruct (l =? n_layers b - 1).
  - destruct (deltas_of b L J _ l _ _). simpl.
    rewrite length_rec_grad. exact Hst'.
  - pose proof (length_ff_error_grad (R_deltas st') s l
                  (zeros_like2 (col (nth l (activations b) []) s))
                  (b_Gv st')) as Hff.
    destruct (ff_error_grad b (R_deltas st') s l _ (b_Gv st'))
      as [err g]. simpl in Hff.
    destruct (deltas_of b L J _ l _ _). simpl.
    rewrite length_rec_grad, Hff. exact Hst'.
Qed.

Lemma fold_left_eq {A B : Type} (f g : A -> B -> A) (l : list B) (a : A) :
  (forall a' x, f a' x = g a' x) -> fold_left f l a = fold_left g l a.
Proof.
  intros H. revert a; induction l as [|x l IH]; intros a; simpl;
    [reflexivity|].
  rewrite H. apply IH.
Qed.

Lemma zip_ip_zip_with {A : Type} (f : A -> A -> A) (a c : list A) :
  length a <= length c -> zip_ip f a c = zip_with f a c.
Proof.
  revert c; induction a as [|x a IH]; intros [|y c] H; simpl in *;
    try reflexivity; try lia.
  f_equal. apply IH. lia.
Qed.

Section Damping.
Context {SL : ScalarLaws num}.

(* a Jacobian-vector product of the zero array is a zero array *)
Hypothesis J_dot_zero :
  forall (J : Jac) (M : mat) (t : bool),
    J_dot b J (zeros_like2 M) t = zeros_like2 (J_dot b J (zeros_like2 M) t).

Hypothesis no_struc_damping : struc_damping self = nzero.

Lemma vadd_ip_zero (a c : @vec num) : vadd_ip a (zeros_like c) = a.
Proof.
  revert c; induction a as [|x a IH]; intros [|y c]; simpl; auto.
  unfold vadd_ip in *. simpl. rewrite nadd_0_r. f_equal. apply IH.
Qed.

Lemma madd_ip_zero (X Y : @mat num) : madd_ip X (zeros_like2 Y) = X.
Proof.
  revert Y; induction X as [|r X IH]; intros [|y Y]; simpl; auto.
  unfold madd_ip in *. simpl. rewrite vadd_ip_zero. f_equal. apply IH.
Qed.

Lemma vscale_zero (x : @vec num) : vscale nzero x = zeros_like x.
Proof.
  unfold vscale, zeros_like. apply map_ext. intros a. apply nmul_0_l.
Qed.

Lemma mscale_zero (M : @mat num) : mscale nzero M = zeros_like2 M.
Proof.
  unfold mscale, zeros_like2. apply map_ext. intros r. apply vscale_zero.
Qed.

(** Without structural damping the damping value leaves the backward sweep
    alone. *)
Lemma struc_damp_none (damping : num) (R : rfstate) (J : Jac) (s l : nat)
    (X : mat) :
  struc_damp self damping R J s l X = X.
Proof.
  unfold struc_damp. rewrite no_struc_damping, nmul_0_r, mscale_zero.
  rewrite J_dot_zero. apply madd_ip_zero.
Qed.

Lemma R_backward_undamped (damping : num) (R : rfstate) (Gv0 : vec) :
  R_backward self damping R Gv0 = R_backward self nzero R Gv0.
Proof.
  unfold R_backward, for_range_down.
  apply fold_left_eq. intros st s.
  apply fold_left_eq. intros st' l.
  unfold R_backward_cell.
  destruct (nth_error (layers b) l) as [L|]; [|reflexivity].
  destruct (nth_error (nth l (d_activations b) []) s) as [J|];
    [|reflexivity].
  destruct (R_error_of self R _ s l st') as [err Gv].
  destruct (deltas_of b L J err l _ _) as [deltas states].
  rewrite !struc_damp_none. reflexivity.
Qed.

(** C1, as amended.  For a network without structural damping, and under
    exact arithmetic, calc_G(v, damping) is calc_G(v, 0) + damping * v: the
    damping value then enters the result through the final term alone. *)
Theorem damping_linear_without_struc_damping
    (h : store) (v : loc) (damping : num) :
  v < next h ->
  length (load h v) = length (W b) ->
  returned (calc_G self h v damping None) =
    vadd (returned (calc_G self h v nzero None))
         (vscale damping (load h v)).
Proof.
  intros Hv Hlen.
  destruct (calc_G_fresh h v damping Hv) as [_ ->].
  destruct (calc_G_fresh h v nzero Hv) as [_ ->].
  unfold calc_G_value.
  rewrite (R_backward_undamped damping).
  rewrite (vscale_zero (load h v)), vadd_ip_zero.
  unfold vadd_ip, vadd. apply zip_ip_zip_with.
  unfold vdiv, vscale. rewrite !length_map, length_R_backward, Hlen.
  unfold zeros. rewrite repeat_length. lia.
Qed.

End Damping.

End CurvatureFacts.

(** ** The results on concrete networks *)

Lemma mmul_zero {num : Type} {SN : Scalar num} {SL : ScalarLaws num}
    (J M : @mat num) :
  mmul J (zeros_like2 M) = zeros_like2 (mmul J (zeros_like2 M)).
Proof.
  assert (Hrow : forall r m : @vec num,
             zip_with nmul r (zeros_like m) =
             zeros_like (zip_with nmul r (zeros_like m))).
  { induction r as [|x r IH]; intros [|y m]; simpl; auto.
    rewrite nmul_0_r. f_equal. apply IH. }
  revert M; induction J as [|r J IH]; intros [|m M]; simpl; auto.
  unfold mmul in *. simpl. f_equal; [apply Hrow|apply IH].
Defined.

Lemma demo_table_ok : table_ok Demo.dR.
Proof.
  split.
  - intros k c H. unfold Demo.dR in H. simpl in H.
    destruct (conn_eqb k (0, 1)); [inversion H; simpl; lia|].
    destruct (conn_eqb k (1, 1)); [inversion H; simpl; lia|discriminate].
  - intros k1 k2 c1 c2 Hne H1 H2. unfold Demo.dR in H1, H2.
    simpl in H1, H2.
    destruct (conn_eqb k1 (0, 1)) eqn:E1;
      [|destruct (conn_eqb k1 (1, 1)) eqn:E1'; [|discriminate]];
      (destruct (conn_eqb k2 (0, 1)) eqn:E2;
       [|destruct (conn_eqb k2 (1, 1)) eqn:E2'; [|discriminate]]);
      inversion H1; inversion H2; subst; simpl; try lia;
      exfalso; apply Hne;
      repeat match goal with
        | H : conn_eqb _ _ = true |- _ => apply conn_eqb_eq in H
        end; congruence.
Defined.

(** C1, counterexample: with struc_damping = 1 the network [1, 1] gives
    calc_G(v, 1) = [3, 2] for v = [1, 0], while calc_G(v, 0) + 1 * v is
    [2, 1]. *)
Lemma damping_not_linear_with_struc_damping :
  returned (calc_G (Demo.rnn2 (Demo.q 1)) Demo.h2 0 (Demo.q 1) None) <>
  vadd (returned (calc_G (Demo.rnn2 (Demo.q 1)) Demo.h2 0 nzero None))
       (vscale (Demo.q 1) (load Demo.h2 0)).
Proof.
  intros H. apply (f_equal Demo.raw) in H. vm_compute in H. discriminate.
Qed.

Lemma damping_linear_witness :
  returned (calc_G (Demo.rnn2 (Demo.q 0)) Demo.h2 0 (Demo.q 1) None) =
  vadd (returned (calc_G (Demo.rnn2 (Demo.q 0)) Demo.h2 0 nzero None))
       (vscale (Demo.q 1) (load Demo.h2 0)).
Proof.
  apply (damping_linear_without_struc_damping (Demo.rnn2 (Demo.q 0))).
  - intros J M t. apply mmul_zero.
  - apply Qc_is_canon. reflexivity.
  - simpl. lia.
  - reflexivity.
Defined.

(** C2, on a concrete construction: HessianRNN([1, 2, 1], load_weights=w)
    with w of 13 entries keeps the 13 entries and gives the recurrent
    connection (1, 1) the block (13, 17, 19), past the end of the vector;
    the index 7 lies in no block, and the table does not partition the
    vector. *)
Lemma loaded_weights_break_partition :
  exists self,
    snd (Demo.construct [1; 2; 1] None (Some (zeros 13))) = inr self /\
    length (W (base self)) = 13 /\
    dict_get (offsets (base self)) (1, 1) = Some (13, 17, 19) /\
    covering (offsets (base self)) 7 = 0 /\
    ~ partitions (offsets (base self)) (length (W (base self))).
Proof.
  eexists. split; [reflexivity|].
  repeat split; try reflexivity.
  intros H. specialize (H 7). vm_compute in H. discriminate.
Qed.

(** The same construction without load_weights: the table partitions the
    13 entries, the recurrent block being (7, 11, 13). *)
Lemma fresh_weights_partition :
  exists self,
    snd (Demo.construct [1; 2; 1] None None) = inr self /\
    length (W (base self)) = 13 /\
    dict_get (offsets (base self)) (1, 1) = Some (7, 11, 13) /\
    partitions (offsets (base self)) (length (W (base self))).
Proof.
  eexists. split; [reflexivity|].
  repeat split; try reflexivity.
  intros k. do 13 (destruct k as [|k]; [reflexivity|]). reflexivity.
Qed.

(** C6, counterexample: on the network [1, 1] with a recurrent output
    layer, the two-dimensional input [[1], [1]] gives the activations
    1, 1, 6, 7 (one sample, two timesteps); the array of shape [2, 1, 1]
    with the same rows gives 1, 1, 6, 6 (two samples, one timestep). *)
Lemma forward_2d_is_not_a_batch_of_one_step :
  Demo.act_values
    (forward (PState := unit) Demo.rnnR Demo.no_state
       (InArr (A2 [[Demo.q 1]; [Demo.q 1]])) Demo.wR false) <>
  Demo.act_values
    (forward (PState := unit) Demo.rnnR Demo.no_state
       (InArr (A3 [[[Demo.q 1]]; [[Demo.q 1]]])) Demo.wR false).
Proof.
  intros H. vm_compute in H. discriminate.
Qed.

Lemma forward_promotes_witness :
  forward (PState := unit) Demo.rnnR Demo.no_state
    (InArr (A1 [Demo.q 1])) Demo.wR false = inl IndexError.
Proof.
  apply (proj2 (proj2 (forward_promotes_single_sample Demo.rnnR Demo.wR
                         false Demo.no_state []))).
  simpl. lia.
Defined.



Lemma structural_damping_added_witness :
  let W_recs := W_recs_of (base Demo.rnnR) (W (base Demo.rnnR)) in
  let R := R_forward Demo.rnnR [Demo.q 1; Demo.q 0; Demo.q 0; Demo.q 0] in
  let cell := R_backward_cell Demo.rnnR (Demo.q 2) R W_recs in
  let st :=
    R_backward_upto Demo.rnnR (Demo.q 2) R 1 1
      (R_backward_init Demo.rnnR (zeros 4)) in
  nth 1 (R_deltas (cell 1 1 st)) [] =
    madd_ip
      (J_dot (base Demo.rnnR) [[Demo.q 1]]
         (fst (R_error_of Demo.rnnR R W_recs 1 1 st)) true)
      (J_dot (base Demo.rnnR) [[Demo.q 1]]
         (mscale (nmul (Demo.q 2) (struc_damping Demo.rnnR))
                 (col (nth 1 (R_inputs R) []) 1))
         false).
Proof.
  refine (proj2 (structural_damping_added Demo.rnnR (Demo.q 2)
                   (R_forward Demo.rnnR
                      [Demo.q 1; Demo.q 0; Demo.q 0; Demo.q 0])
                   (zeros 4) 1 1 Demo.linear [[Demo.q 1]]
                   _ _ eq_refl eq_refl)); vm_compute; lia.
Defined.

Lemma init_checks_rec_layers_witness :
  Demo.construct [1; 2; 1] (Some [true]) None =
  ([], inl (ValueError "Must define recurrence for each layer")).
Proof.
  apply (proj1 (init_checks_rec_layers Demo.ff_compute_offsets Demo.setup
                  (fun kw => kw) [1; 2; 1] (Demo.q 0) (Some [true]) tt
                  None)).
  vm_compute. lia.
Defined.

Lemma error_with_plant_witness :
  error Demo.base_error Demo.rnnR Demo.no_state None
    (InPlant Demo.plant1 5) (Some []) = inl AssertionError.
Proof.
  apply (proj1 (error_with_plant Demo.base_error Demo.rnnR Demo.no_state
                  None Demo.plant1 5 (Some []))).
  discriminate.
Defined.

Lemma plant_first_call_zero_witness :
  exists st,
    forward Demo.rnnR Demo.no_state (InPlant Demo.plant1 5) Demo.wR false =
      inr st /\
    nth_error (f_calls st) 0 = Some (zeros2 1 1).
Proof.
  assert (HT : 0 < snd (p_shape Demo.plant1 (p_reset Demo.plant1 5)))
    by (vm_compute; lia).
  assert (Hs : shape (base Demo.rnnR) <> []) by discriminate.
  assert (Hl : layers (base Demo.rnnR) <> []) by discriminate.
  destruct (plant_first_call_zero Demo.rnnR Demo.wR false Demo.no_state
              Demo.plant1 5 HT Hs Hl) as (st & Hf & Hc & _).
  exists st. split; [exact Hf|exact Hc].
Defined.



(** * Further properties of the construction *)

Lemma dict_get_In (d : dict) (k : conn) (c : cuts) :
  dict_get d k = Some c -> In (k, c) d.
Proof.
  induction d as [|[k' v'] d IH]; simpl; [discriminate|].
  destruct (conn_eqb k k') eqn:E.
  - apply conn_eqb_eq in E. subst k'. intros H; inversion H. auto.
  - intros H. right. apply IH. exact H.
Qed.

Lemma In_dict_set (d : dict) (k k' : conn) (c v : cuts) :
  In (k, c) (dict_set d k' v) -> (k, c) = (k', v) \/ In (k, c) d.
Proof.
  induction d as [|[k0 v0] d IH]; simpl.
  - intros [H|[]]; auto.
  - destruct (conn_eqb k' k0); simpl.
    + intros [H|H]; auto.
    + intros [H|H]; auto. destruct (IH H); auto.
Qed.

Lemma rec_offsets_flagged (shp : list nat) (rl : list bool) (off : nat)
    (d : dict) (len : nat) :
  (forall l c, ~ In ((l, l), c) d) ->
  forall l c,
    In ((l, l), c)
       (snd (fold_left (rec_offset_step shp rl) (seq 0 len) (off, d))) ->
    nth l rl false = true.
Proof.
  intros Hfresh. induction len as [|len IH]; intros l c Hin.
  - simpl in Hin. exfalso. apply (Hfresh l c Hin).
  - rewrite seq_S, fold_left_app in Hin. simpl (0 + len) in Hin.
    cbn [fold_left] in Hin.
    destruct (fold_left (rec_offset_step shp rl) (seq 0 len) (off, d))
      as [o d'] eqn:E.
    unfold rec_offset_step in Hin.
    destruct (nth len rl false) eqn:Er; cbn [snd] in Hin.
    + apply In_dict_set in Hin. destruct Hin as [Hin|Hin].
      * inversion Hin; subst. exact Er.
      * apply (IH l c). exact Hin.
    + apply (IH l c). exact Hin.
Qed.

Lemma rec_offsets_none (shp : list nat) (rl : list bool) (ls : list nat)
    (off : nat) (d : dict) :
  existsb (fun x => x) rl = false ->
  fold_left (rec_offset_step shp rl) ls (off, d) = (off, d).
Proof.
  intros Hrl. induction ls as [|l ls IH]; simpl; [reflexivity|].
  rewrite (existsb_false_nth rl l Hrl). exact IH.
Qed.

Section ConstructionExtras.
Context {num : Type} {SN : Scalar num}.
Context {LState Jac WParams Kwargs : Type}.

Variable super_compute_offsets :
  @HessianFF num LState Jac WParams -> @HessianFF num LState Jac WParams.
Variable super_setup :
  list nat -> Kwargs -> exn + @HessianFF num LState Jac WParams.
Variable kw_load_weights : Kwargs -> option (@vec num).

Local Abbreviation construct :=
  (init super_compute_offsets super_setup kw_load_weights).

(** X1.  Without a recurrence list, a topology of fewer than two layers is
    refused: the default list always has at least two flags, so the length
    check fails and the constructor raises its ValueError before it has
    called the base class. *)
Theorem init_default_needs_two_layers
    (shp : list nat) (sd : num) (wp : WParams) (kw : Kwargs) :
  length shp < 2 ->
  construct shp sd None wp kw =
    ([], inl (ValueError "Must define recurrence for each layer")).
Proof.
  intros H. unfold init, default_rec_layers.
  destruct shp as [|a [|c shp]]; simpl in *; try reflexivity; lia.
Qed.

(** X2.  A network none of whose layers is recurrent is the base class's
    network: the constructor calls the base class once and nothing else,
    and the parameter vector and the offset table are the ones the base
    class made. *)
Theorem init_without_recurrence
    (shp : list nat) (sd : num) (rl : list bool) (wp : WParams)
    (kw : Kwargs) (b0 : @HessianFF num LState Jac WParams) :
  length rl = length shp ->
  existsb (fun x => x) rl = false ->
  super_setup shp kw = inr b0 ->
  exists self,
    construct shp sd (Some rl) wp kw = ([Call_super_init], inr self) /\
    W (base self) = W (super_compute_offsets b0) /\
    offsets (base self) = offsets (super_compute_offsets b0) /\
    rec_layers self = rl.
Proof.
  intros Hlen Hrl Hb0. unfold init.
  rewrite Hlen, Nat.eqb_refl. simpl negb. cbv iota.
  unfold HessianFF_init. rewrite Hb0, Hrl.
  unfold compute_offsets. cbn [base rec_layers].
  rewrite rec_offsets_none by exact Hrl. cbn [snd].
  destruct (kw_load_weights kw); eexists; repeat split; reflexivity.
Qed.

(** X5.  In the table of a constructed network, a layer has an entry for
    its self-connection exactly when it is a layer of the network flagged
    recurrent, loaded weights or not; the entries of the other connections
    are the base class's. *)
Theorem rec_entries_iff_flagged
    (shp : list nat) (sd : num) (rec_arg : option (list bool))
    (wp : WParams) (kw : Kwargs)
    (b0 : @HessianFF num LState Jac WParams)
    (self : @HessianRNN num LState Jac WParams) :
  super_setup shp kw = inr b0 ->
  (forall l c, ~ In ((l, l), c) (offsets (super_compute_offsets b0))) ->
  snd (construct shp sd rec_arg wp kw) = inr self ->
  (forall l,
     dict_get (offsets (base self)) (l, l) <> None <->
     l < n_layers (base self) /\ nth l (rec_layers self) false = true) /\
  (forall k, (forall l, k <> (l, l)) ->
     dict_get (offsets (base self)) k =
     dict_get (offsets (super_compute_offsets b0)) k).
Proof.
  intros Hb0 Hfresh Hself.
  unfold init in Hself.
  set (rl := match rec_arg with
             | None => default_rec_layers shp
             | Some r => r
             end) in *.
  destruct (negb (length rl =? length shp)); [discriminate|].
  unfold HessianFF_init in Hself. rewrite Hb0 in Hself.
  set (b1 := super_compute_offsets b0) in *.
  destruct (rec_offsets_loop (shape b1) rl (length (W b1)) (offsets b1)
              (n_layers b1) Hfresh) as (_ & _ & Hk & Hget & Hff).
  pose proof (rec_offsets_flagged (shape b1) rl (length (W b1)) (offsets b1)
                (n_layers b1) Hfresh) as Hfl.
  cbv zeta in Hk, Hget, Hff.
  assert (Hgoal :
    forall self' : @HessianRNN num LState Jac WParams,
      offsets (base self') =
        snd (fold_left (rec_offset_step (shape b1) rl)
               (seq 0 (n_layers b1)) (length (W b1), offsets b1)) ->
      n_layers (base self') = n_layers b1 ->
      rec_layers self' = rl ->
      (forall l,
         dict_get (offsets (base self')) (l, l) <> None <->
         l < n_layers (base self') /\ nth l (rec_layers self') false = true)
      /\
      (forall k, (forall l, k <> (l, l)) ->
         dict_get (offsets (base self')) k = dict_get (offsets b1) k)).
  { intros self' Ho Hn Hr. rewrite Ho, Hn, Hr. split; [|exact Hff].
    intros l. split.
    - intros Hne.
      destruct (dict_get _ (l, l)) as [c|] eqn:E; [|congruence].
      apply dict_get_In in E. split; [eapply Hk|eapply Hfl]; exact E.
    - intros [Hl Hr']. rewrite (Hget l Hl Hr'). discriminate. }
  destruct (kw_load_weights kw);
    [|destruct (existsb (fun x => x) rl)];
    cbn [snd] in Hself; inversion Hself; subst self;
    apply Hgoal; reflexivity.
Qed.

End ConstructionExtras.

(** * Further properties of the forward pass *)

Lemma for_range_ind {St : Type} (I : nat -> St -> Prop) (n : nat)
    (body : nat -> St -> St) (st : St) :
  I 0 st ->
  (forall i st', i < n -> I i st' -> I (S i) (body i st')) ->
  I n (for_range n body st).
Proof.
  intros H0 Hstep. induction n as [|n IH]; [exact H0|].
  rewrite for_range_S. apply Hstep; [lia|].
  apply IH. intros i st' Hi. apply Hstep. lia.
Qed.

Lemma for_range_rel {S1 S2 : Type} (R : S1 -> S2 -> Prop) (n : nat)
    (f : nat -> S1 -> S1) (g : nat -> S2 -> S2) (a : S1) (c : S2) :
  R a c ->
  (forall i a' c', i < n -> R a' c' -> R (f i a') (g i c')) ->
  R (for_range n f a) (for_range n g c).
Proof.
  intros H0 Hstep. induction n as [|n IH]; [exact H0|].
  rewrite !for_range_S. apply Hstep; [lia|].
  apply IH. intros i a' c' Hi. apply Hstep. lia.
Qed.

Lemma last_nth_length {A : Type} (l : list A) (d : A) :
  last l d = nth (length l - 1) l d.
Proof.
  induction l as [|x l IH]; [reflexivity|].
  destruct l as [|y l]; [reflexivity|].
  change (last (x :: y :: l) d) with (last (y :: l) d).
  rewrite IH. simpl. rewrite Nat.sub_0_r. reflexivity.
Qed.

Lemma Forall_upd {A : Type} (P : A -> Prop) (l : list A) (i : nat) (x : A) :
  P x -> Forall P l -> Forall P (upd l i x).
Proof.
  intros Hx Hl. revert i; induction Hl as [|y l Hy Hl IH]; intros [|i];
    simpl; constructor; auto.
Qed.

Lemma nth_map_lt {A B : Type} (f : A -> B) (l : list A) (i : nat) (d : B)
    (d' : A) :
  i < length l -> nth i (map f l) d = f (nth i l d').
Proof.
  revert i; induction l as [|x l IH]; intros [|i] Hi; simpl in *;
    try lia; auto.
  apply IH. lia.
Qed.

Lemma nth_map_const {A B : Type} (c : B) (l : list A) (j : nat) :
  nth j (map (fun _ => c) l) c = c.
Proof.
  revert j; induction l as [|x l IH]; intros [|j]; simpl; auto.
Qed.

Section ForwardExtras.
Context {num : Type} {SN : Scalar num}.
Context {LState Jac PState WParams : Type}.

Variable self : @HessianRNN num LState Jac WParams.
Variable params : @vec num.

Local Abbreviation b := (base self).
Local Abbreviation cell :=
  (fun deriv =>
     forward_cell (PState := PState) self params deriv (W_recs_of b params)).

Lemma set_col_rows (a : @tensor3 num) (s : nat) (m : mat) (T : nat) :
  Forall (fun r => length r = T) a ->
  Forall (fun r => length r = T) (set_col a s m).
Proof.
  intros Ha. revert m; induction Ha as [|r a Hr Ha IH]; intros m; simpl;
    constructor; auto.
  rewrite length_upd. exact Hr.
Qed.

(** What a run of the body does to the activations: it writes one
    timestep of one layer, or nothing. *)
Lemma forward_cell_acts (deriv : bool) (s i : nat) (st : fstate) :
  f_acts (cell deriv s i st) = f_acts st \/
  exists a,
    f_acts (cell deriv s i st) =
      upd (f_acts st) i (set_col (nth i (f_acts st) []) s a).
Proof.
  unfold forward_cell.
  destruct (nth_error (layers b) i) as [L|]; [|left; reflexivity].
  destruct (cell_input b params st s i) as [[inp ff] calls].
  destruct (activation L _ _) as [ls1 a].
  destruct deriv; [destruct (d_activation L _ _)|];
    right; exists a; reflexivity.
Qed.

Lemma forward_cell_shaped (deriv : bool) (B T : nat) (s i : nat)
    (st : fstate) :
  acts_shaped B T (n_layers b) (f_acts st) ->
  acts_shaped B T (n_layers b) (f_acts (cell deriv s i st)).
Proof.
  intros [Hlen Hsh].
  destruct (forward_cell_acts deriv s i st) as [->|[a ->]];
    [split; assumption|].
  split; [rewrite length_upd; exact Hlen|].
  intros j Hj. destruct (Nat.eq_dec i j) as [->|Hij].
  - rewrite nth_upd_same by lia.
    destruct (Hsh j Hj) as [H1 H2]. split.
    + exact (eq_trans (length_set_col _ s a) H1).
    + apply set_col_rows. exact H2.
  - rewrite nth_upd_other by exact Hij. apply Hsh. exact Hj.
Qed.

Lemma forward_init_shaped (lst : nat -> LState) (inp : input)
    (deriv : bool) :
  acts_shaped (fst (input_shape inp)) (snd (input_shape inp)) (n_layers b)
    (f_acts (forward_init (PState := PState) self lst inp deriv)).
Proof.
  unfold forward_init. destruct (input_shape inp) as [B T]. simpl.
  split; [apply length_map|].
  intros i Hi.
  set (x := nth i (map _ _) _).
  assert (E : x = zeros3 B T (nth i (shape b) 0))
    by (apply nth_map_lt; exact Hi).
  clearbody x. subst x.
  unfold zeros3, zeros2. split; [apply repeat_length|].
  apply Forall_forall. intros r Hr. apply repeat_spec in Hr. subst r.
  apply repeat_length.
Qed.

Lemma forward_loops_shaped (deriv : bool) (B T : nat)
    (st0 : @fstate num LState Jac PState) :
  acts_shaped B T (n_layers b) (f_acts st0) ->
  acts_shaped B T (n_layers b)
    (f_acts (forward_loops self params deriv st0)).
Proof.
  intros H0. unfold forward_loops, for_range.
  apply (fold_left_inv
           (fun st => acts_shaped B T (n_layers b) (f_acts st)));
    [exact H0|].
  intros st s _ Hst.
  apply (fold_left_inv
           (fun st => acts_shaped B T (n_layers b) (f_acts st)));
    [exact Hst|].
  intros st' i _ Hst'. apply forward_cell_shaped. exact Hst'.
Qed.

(** X6.  Whatever the nonlinearities return, forward gives one activation
    array per layer, each with as many rows as the input has samples and
    as many slots per row as the input has timesteps. *)
Theorem forward_activation_shapes
    (lst : nat -> LState) (inp inp' : input) (deriv : bool) :
  promote inp = inr inp' ->
  exists st,
    forward (PState := PState) self lst inp params deriv = inr st /\
    acts_shaped (fst (input_shape inp')) (snd (input_shape inp'))
      (n_layers b) (f_acts st).
Proof.
  intros Hp. unfold forward. rewrite Hp. eexists. split; [reflexivity|].
  apply forward_loops_shaped. apply forward_init_shaped.
Qed.

Lemma forward_cell_dacts_on (s i : nat) (st : fstate) (L : Nonlinearity) :
  nth_error (layers b) i = Some L ->
  exists d,
    f_dacts (cell true s i st) =
      upd (f_dacts st) i (nth i (f_dacts st) [] ++ [d]).
Proof.
  intros HL. unfold forward_cell. rewrite HL.
  destruct (cell_input b params st s i) as [[inp ff] calls].
  destruct (activation L _ _) as [ls1 a].
  destruct (d_activation L _ _) as [ls2 d]. exists d. reflexivity.
Qed.

Lemma forward_cell_dacts_off (s i : nat) (st : fstate) :
  f_dacts (cell false s i st) = f_dacts st.
Proof.
  unfold forward_cell.
  destruct (nth_error (layers b) i) as [L|]; [|reflexivity].
  destruct (cell_input b params st s i) as [[inp ff] calls].
  destruct (activation L _ _) as [ls1 a]. reflexivity.
Qed.

Lemma forward_init_input (lst : nat -> LState) (inp : input)
    (deriv : bool) :
  f_input (forward_init (PState := PState) self lst inp deriv) = inp.
Proof. unfold forward_init. destruct (input_shape inp). reflexivity. Qed.

(** X7.  With deriv, forward returns for every layer one derivative per
    timestep of the input, in time order of appending; without deriv it
    computes none. *)
Theorem forward_derivative_counts
    (lst : nat -> LState) (inp inp' : input) :
  promote inp = inr inp' ->
  length (layers b) = n_layers b ->
  (exists st,
     forward (PState := PState) self lst inp params true = inr st /\
     length (f_dacts st) = n_layers b /\
     forall j, j < n_layers b ->
       length (nth j (f_dacts st) []) = snd (input_shape inp')) /\
  (exists st,
     forward (PState := PState) self lst inp params false = inr st /\
     f_dacts st = []).
Proof.
  intros Hp Hlay. unfold forward. rewrite Hp. split.
  - eexists. split; [reflexivity|].
    unfold forward_loops. rewrite forward_init_input.
    apply (for_range_ind
             (fun s st =>
                length (f_dacts st) = n_layers b /\
                forall j, j < n_layers b ->
                  length (nth j (f_dacts st) []) = s)).
    + unfold forward_init. destruct (input_shape inp'). simpl.
      split; [rewrite length_map; exact Hlay|].
      intros j Hj.
      rewrite nth_map_const. reflexivity.
    + intros s st Hs [Hlen Hcnt].
      assert (K : length (f_dacts (for_range (n_layers b) (cell true s) st))
                  = n_layers b /\
                  forall j, j < n_layers b ->
                    length (nth j (f_dacts
                                     (for_range (n_layers b) (cell true s)
                                        st)) []) =
                    if j <? n_layers b then S s else s).
      { apply (for_range_ind
                 (fun i st' =>
                    length (f_dacts st') = n_layers b /\
                    forall j, j < n_layers b ->
                      length (nth j (f_dacts st') []) =
                      if j <? i then S s else s)).
        - split; [exact Hlen|]. intros j Hj. simpl. apply Hcnt. exact Hj.
        - intros i st' Hi [Hlen' Hcnt'].
          destruct (nth_error (layers b) i) as [L|] eqn:EL;
            [|apply nth_error_None in EL; lia].
          destruct (forward_cell_dacts_on s i st' L EL) as [d ->].
          split; [rewrite length_upd; exact Hlen'|].
          intros j Hj. destruct (Nat.eq_dec i j) as [->|Hij].
          + rewrite nth_upd_same by lia. rewrite length_app, Hcnt' by lia.
            rewrite Nat.ltb_irrefl.
            replace (j <? S j) with true by (symmetry; apply Nat.ltb_lt; lia).
            simpl. lia.
          + rewrite nth_upd_other by exact Hij. rewrite Hcnt' by exact Hj.
            destruct (j <? i) eqn:E1, (j <? S i) eqn:E2; try reflexivity;
              apply Nat.ltb_lt in E1 || apply Nat.ltb_ge in E1;
              apply Nat.ltb_lt in E2 || apply Nat.ltb_ge in E2; lia. }
      destruct K as [K1 K2]. split; [exact K1|].
      intros j Hj. rewrite K2 by exact Hj.
      replace (j <? n_layers b) with true
        by (symmetry; apply Nat.ltb_lt; exact Hj).
      reflexivity.
  - eexists. split; [reflexivity|].
    unfold forward_loops, for_range.
    apply (fold_left_inv (fun st => f_dacts st = [])).
    + unfold forward_init. destruct (input_shape inp'). reflexivity.
    + intros st s _ Hst.
      apply (fold_left_inv (fun st => f_dacts st = [])); [exact Hst|].
      intros st' i _ Hst'. rewrite forward_cell_dacts_off. exact Hst'.
Qed.

Lemma col_py_nat (a : @tensor3 num) (k : nat) :
  a = [] \/ k < shape1 a -> col_py a (Z.of_nat k) = col a k.
Proof.
  intros [->|Hk]; unfold col_py.
  - destruct (py_index _ _); reflexivity.
  - unfold py_index.
    replace (0 <=? Z.of_nat k)%Z with true
      by (symmetry; apply Z.leb_le; lia).
    replace (Z.of_nat k <? Z.of_nat (shape1 a))%Z with true
      by (symmetry; apply Z.ltb_lt; lia).
    rewrite Nat2Z.id. reflexivity.
Qed.

Lemma shaped_last (B T : nat) (acts : list (@tensor3 num)) :
  1 <= n_layers b ->
  acts_shaped B T (n_layers b) acts ->
  last acts [] = [] \/ shape1 (last acts []) = T.
Proof.
  intros Hn [Hlen Hsh].
  assert (E : last acts [] = nth (n_layers b - 1) acts []).
  { rewrite last_nth_length. f_equal. f_equal. exact Hlen. }
  rewrite E.
  destruct (Hsh (n_layers b - 1)) as [_ Hrows]; [lia|].
  destruct (nth (n_layers b - 1) acts []) as [|r a] eqn:En;
    [left; reflexivity|].
  right. simpl.
  assert (Hr : Forall (fun r0 : list (@vec num) => length r0 = T) (r :: a))
    by (rewrite <- En; exact Hrows).
  apply Forall_inv in Hr. exact Hr.
Qed.

Lemma forward_cell_last_frame (deriv : bool) (s i s0 : nat)
    (st : fstate) :
  s <> s0 ->
  col (last (f_acts (cell deriv s i st)) []) s0 =
  col (last (f_acts st) []) s0.
Proof.
  intros Hs. rewrite !last_nth_length.
  assert (Hlen : length (f_acts (cell deriv s i st)) = length (f_acts st)).
  { destruct (forward_cell_acts deriv s i st) as [->|[a ->]];
      [reflexivity|apply length_upd]. }
  rewrite Hlen.
  apply (forward_cell_frame self params deriv s i s0). exact Hs.
Qed.

Lemma forward_cell_plant_calls (deriv : bool) (s i : nat) (st : fstate)
    (p : Plant) (ps : PState) (L : Nonlinearity) :
  f_input st = InPlant p ps ->
  nth_error (layers b) i = Some L ->
  f_calls (cell deriv s i st) =
    if i =? 0
    then f_calls st ++ [col_py (last (f_acts st) []) (Z.of_nat s - 1)]
    else f_calls st.
Proof.
  intros Hin HL. unfold forward_cell, cell_input, external_input.
  rewrite HL, Hin. destruct (i =? 0).
  - destruct (p_call p ps _) as [ps' x].
    destruct (activation L _ _) as [ls1 a].
    destruct deriv; [destruct (d_activation L _ _)|]; reflexivity.
  - destruct (activation L _ _) as [ls1 a].
    destruct deriv; [destruct (d_activation L _ _)|]; reflexivity.
Qed.

(** X8.  A plant is called exactly once per timestep, and at every
    timestep after the first it is handed the network's output of the
    timestep before, as the finished pass returns it. *)
Theorem plant_receives_previous_output
    (lst : nat -> LState) (p : Plant) (ps : PState) (deriv : bool) :
  shape b <> [] ->
  length (layers b) = n_layers b ->
  exists st,
    forward self lst (InPlant p ps) params deriv = inr st /\
    length (f_calls st) = snd (p_shape p (p_reset p ps)) /\
    forall s,
      1 <= s -> s < snd (p_shape p (p_reset p ps)) ->
      nth_error (f_calls st) s = Some (col (last (f_acts st) []) (s - 1)).
Proof.
  intros Hshape Hlay.
  set (ps0 := p_reset p ps).
  set (B := fst (p_shape p ps0)). set (T := snd (p_shape p ps0)).
  set (st0 := forward_init self lst (InPlant p ps0) deriv).
  exists (forward_loops self params deriv st0). split; [reflexivity|].
  assert (Hn : 1 <= n_layers b).
  { unfold n_layers. destruct (shape b); [congruence|simpl; lia]. }
  pose (Inv := fun (c : nat) (st : @fstate num LState Jac PState) =>
    acts_shaped B T (n_layers b) (f_acts st) /\
    (exists ps', f_input st = InPlant p ps') /\
    length (f_calls st) = c /\
    forall k, 1 <= k -> k < c ->
      nth_error (f_calls st) k = Some (col (last (f_acts st) []) (k - 1))).
  assert (Hfinal : Inv T (forward_loops self params deriv st0)).
  { assert (Hin0 : f_input st0 = InPlant p ps0)
      by apply forward_init_input.
    unfold forward_loops. rewrite Hin0.
    change (snd (input_shape (InPlant p ps0))) with T.
    apply (for_range_ind (fun s st => Inv s st)).
    - split; [apply (forward_init_shaped lst (InPlant p ps0) deriv)|].
      split; [exists ps0; exact Hin0|].
      split; [|intros k Hk1 Hk2; lia].
      unfold st0, forward_init. destruct (input_shape _). reflexivity.
    - intros s st Hs HI.
      assert (K : Inv (s + 1) (for_range (n_layers b) (cell deriv s) st)).
      { assert (K' : Inv (s + (if 0 <? n_layers b then 1 else 0))
                       (for_range (n_layers b) (cell deriv s) st)).
        { apply (for_range_ind
                   (fun i st' => Inv (s + (if 0 <? i then 1 else 0)) st')).
          - simpl. rewrite Nat.add_0_r. exact HI.
          - intros i st' Hi (Hsh & [ps' Hin] & Hlen & Hcalls).
            destruct (nth_error (layers b) i) as [L|] eqn:EL;
              [|apply nth_error_None in EL; lia].
            pose proof (forward_cell_plant_calls deriv s i st' p ps' L
                          Hin EL) as Hc.
            split; [apply forward_cell_shaped; exact Hsh|].
            split; [eapply forward_cell_plant; exact Hin|].
            change (0 <? S i) with true.
            destruct i as [|i].
            + simpl in Hc, Hlen, Hcalls. rewrite Nat.add_0_r in Hlen, Hcalls.
              rewrite Hc. split; [rewrite length_app; simpl; lia|].
              intros k Hk1 Hk2.
              rewrite forward_cell_last_frame by lia.
              destruct (Nat.eq_dec k s) as [->|Hne].
              * rewrite nth_error_app2 by lia.
                rewrite Hlen, Nat.sub_diag. simpl. f_equal.
                replace (Z.of_nat s - 1)%Z with (Z.of_nat (s - 1)) by lia.
                apply col_py_nat.
                destruct (shaped_last B T (f_acts st') Hn Hsh) as [E|E];
                  [left; exact E|right; rewrite E; lia].
              * rewrite nth_error_app1 by lia. apply Hcalls; lia.
            + simpl in Hc. change (0 <? S i) with true in Hlen, Hcalls.
              rewrite Hc. split; [exact Hlen|].
              intros k Hk1 Hk2.
              rewrite forward_cell_last_frame by lia.
              apply Hcalls; lia. }
        replace (0 <? n_layers b) with true in K'
          by (symmetry; apply Nat.ltb_lt; lia).
        exact K'. }
      replace (S s) with (s + 1) by lia. exact K. }
  destruct Hfinal as (_ & _ & Hlen & Hcalls).
  split; [exact Hlen|]. intros s H1 H2. apply Hcalls; assumption.
Qed.

Lemma forward_cell_causal (deriv : bool) (s i : nat) (st st' : fstate)
    (x x' : @tensor3 num) :
  f_input st = InArr (A3 x) -> f_input st' = InArr (A3 x') ->
  col x s = col x' s ->
  same_progress st st' ->
  (f_input (cell deriv s i st) = InArr (A3 x) /\
   f_input (cell deriv s i st') = InArr (A3 x')) /\
  same_progress (cell deriv s i st) (cell deriv s i st').
Proof.
  intros Hin Hin' Hcol (Ha & Hl & Hc).
  unfold same_progress, forward_cell, cell_input, external_input.
  rewrite Hin, Hin', <- Ha, <- Hc, <- (Hl i).
  destruct (nth_error (layers b) i) as [L|];
    [|repeat split; auto].
  simpl arr3. rewrite <- Hcol.
  destruct (i =? 0);
    destruct (activation L _ _) as [ls1 a];
    (destruct deriv; [destruct (d_activation L _ _) as [ls2 d]|]); simpl;
    repeat split; auto; intros j0; destruct (j0 =? i); auto.
Qed.

Lemma forward_row_causal (deriv : bool) (s n : nat) (st st' : fstate)
    (x x' : @tensor3 num) :
  col x s = col x' s ->
  (f_input st = InArr (A3 x) /\ f_input st' = InArr (A3 x')) /\
  same_progress st st' ->
  (f_input (for_range n (cell deriv s) st) = InArr (A3 x) /\
   f_input (for_range n (cell deriv s) st') = InArr (A3 x')) /\
  same_progress (for_range n (cell deriv s) st)
                (for_range n (cell deriv s) st').
Proof.
  intros Hcol H0.
  apply (for_range_rel
           (fun a c => (f_input a = InArr (A3 x) /\
                        f_input c = InArr (A3 x')) /\ same_progress a c));
    [exact H0|].
  intros i a c _ [[Hin Hin'] Hsp].
  apply forward_cell_causal; assumption.
Qed.

(** X9.  The pass is causal: two input arrays of the same shape that agree
    on the timesteps 0..s give the same activations at the timesteps 0..s
    in every layer, whatever they hold later. *)
Theorem forward_causal
    (lst : nat -> LState) (x x' : @tensor3 num) (deriv : bool) (s : nat) :
  shape0 x = shape0 x' ->
  shape1 x = shape1 x' ->
  (forall k, k <= s -> col x k = col x' k) ->
  exists st st',
    forward (PState := PState) self lst (InArr (A3 x)) params deriv =
      inr st /\
    forward (PState := PState) self lst (InArr (A3 x')) params deriv =
      inr st' /\
    forall i k, k <= s ->
      col (nth i (f_acts st) []) k = col (nth i (f_acts st') []) k.
Proof.
  intros H0 H1 Hcols.
  set (st0 := forward_init (PState := PState) self lst (InArr (A3 x)) deriv).
  set (st0' := forward_init (PState := PState) self lst (InArr (A3 x'))
                 deriv).
  exists (forward_loops self params deriv st0),
         (forward_loops self params deriv st0').
  split; [reflexivity|]. split; [reflexivity|].
  assert (Hin : f_input st0 = InArr (A3 x)) by apply forward_init_input.
  assert (Hin' : f_input st0' = InArr (A3 x')) by apply forward_init_input.
  assert (Hsp : same_progress st0 st0').
  { unfold st0, st0', forward_init, same_progress. simpl input_shape.
    unfold arr3. rewrite H0, H1. simpl. repeat split; reflexivity. }
  set (rows := fun st1 s' => for_range (n_layers b) (cell deriv s') st1).
  assert (Hpre : forall m, m <= S s ->
            (f_input (for_range m (fun s' st1 => rows st1 s') st0)
               = InArr (A3 x) /\
             f_input (for_range m (fun s' st1 => rows st1 s') st0')
               = InArr (A3 x')) /\
            same_progress (for_range m (fun s' st1 => rows st1 s') st0)
                          (for_range m (fun s' st1 => rows st1 s') st0')).
  { intros m Hm.
    apply (for_range_rel
             (fun a c => (f_input a = InArr (A3 x) /\
                          f_input c = InArr (A3 x')) /\ same_progress a c));
      [split; [split|]; assumption|].
    intros k a c Hk Hac. unfold rows.
    apply forward_row_causal; [apply Hcols; lia|exact Hac]. }
  intros i k Hk.
  rewrite !forward_loops_upto, Hin, Hin'. simpl input_shape.
  unfold arr3. simpl snd. rewrite <- H1.
  destruct (Nat.le_gt_cases (S s) (shape1 x)) as [Hle|Hgt].
  - (* the later timesteps leave the first s+1 as they are *)
    destruct (Hpre (S s) (Nat.le_refl _)) as [_ (Ha & _ & _)].
    transitivity (col (nth i (f_acts (forward_upto self params deriv
                                        (S s) 0 st0)) []) k).
    + apply (upto_preserved self params deriv
               (fun st => col (nth i (f_acts st) []) k =
                          col (nth i (f_acts (forward_upto self params deriv
                                                (S s) 0 st0)) []) k)
               st0 (S s) 0); auto; try lia.
      intros s' i' st Hs' HQ. rewrite <- HQ.
      apply forward_cell_frame. lia.
    + transitivity (col (nth i (f_acts (forward_upto self params deriv
                                          (S s) 0 st0')) []) k).
      * change (forward_upto self params deriv (S s) 0 st0)
          with (for_range (S s) (fun s' st1 => rows st1 s') st0).
        change (forward_upto self params deriv (S s) 0 st0')
          with (for_range (S s) (fun s' st1 => rows st1 s') st0').
        rewrite Ha. reflexivity.
      * symmetry.
        apply (upto_preserved self params deriv
                 (fun st => col (nth i (f_acts st) []) k =
                            col (nth i (f_acts (forward_upto self params deriv
                                                  (S s) 0 st0')) []) k)
                 st0' (S s) 0); auto; try lia.
        intros s' i' st Hs' HQ. rewrite <- HQ.
        apply forward_cell_frame. lia.
  - (* the inputs agree on every timestep *)
    destruct (Hpre (shape1 x)) as [_ (Ha & _ & _)]; [lia|].
    change (forward_upto self params deriv (shape1 x) 0 st0)
      with (for_range (shape1 x) (fun s' st1 => rows st1 s') st0).
    change (forward_upto self params deriv (shape1 x) 0 st0')
      with (for_range (shape1 x) (fun s' st1 => rows st1 s') st0').
    rewrite Ha. reflexivity.
Qed.

Lemma forward_cell_deriv (s i : nat) (st st' : fstate) :
  (forall L ls m, In L (layers b) -> fst (d_activation L ls m) = ls) ->
  f_input st = f_input st' /\ same_progress st st' ->
  f_input (cell true s i st) = f_input (cell false s i st') /\
  same_progress (cell true s i st) (cell false s i st').
Proof.
  intros Hd [Hin (Ha & Hl & Hc)].
  unfold same_progress, forward_cell, cell_input, external_input.
  rewrite <- Hin, <- Ha, <- Hc, <- (Hl i).
  destruct (nth_error (layers b) i) as [L|] eqn:EL;
    [|repeat split; auto].
  apply nth_error_In in EL.
  destruct (i =? 0); [destruct (f_input st) as [p ps|arr];
                      [destruct (p_call p ps _) as [ps' xx]|]|];
    destruct (activation L _ _) as [ls1 a];
    match goal with
    | |- context [d_activation L ?l ?m] =>
        pose proof (Hd L l m EL) as Hfst;
        destruct (d_activation L l m) as [ls2 d]
    end;
    simpl in Hfst; subst ls2; simpl; repeat split; auto;
    intros j0; destruct (j0 =? i); auto.
Qed.

(** X10.  When computing a derivative leaves the state of a nonlinearity
    as it is, asking forward for the derivatives changes nothing else: the
    activations and the calls of the plant are those of the pass without
    derivatives. *)
Theorem forward_deriv_same_activations
    (lst : nat -> LState) (inp : input) (st st' : fstate) :
  (forall L ls m, In L (layers b) -> fst (d_activation L ls m) = ls) ->
  forward (PState := PState) self lst inp params true = inr st ->
  forward (PState := PState) self lst inp params false = inr st' ->
  f_acts st = f_acts st' /\ f_calls st = f_calls st'.
Proof.
  intros Hd Hf Hf'. unfold forward in Hf, Hf'.
  destruct (promote inp) as [e|inp']; [discriminate|].
  inversion Hf; subst st. inversion Hf'; subst st'. clear Hf Hf'.
  unfold forward_loops. rewrite !forward_init_input.
  assert (H : f_input
                (for_range (snd (input_shape inp'))
                   (fun s => for_range (n_layers b) (cell true s))
                   (forward_init self lst inp' true)) =
              f_input
                (for_range (snd (input_shape inp'))
                   (fun s => for_range (n_layers b) (cell false s))
                   (forward_init self lst inp' false)) /\
              same_progress
                (for_range (snd (input_shape inp'))
                   (fun s => for_range (n_layers b) (cell true s))
                   (forward_init self lst inp' true))
                (for_range (snd (input_shape inp'))
                   (fun s => for_range (n_layers b) (cell false s))
                   (forward_init self lst inp' false))).
  { apply (for_range_rel
             (fun a c => f_input a = f_input c /\ same_progress a c)).
    - rewrite !forward_init_input. split; [reflexivity|].
      unfold forward_init, same_progress.
      destruct (input_shape inp'). simpl. repeat split; reflexivity.
    - intros s a c _ Hac.
      apply (for_range_rel
               (fun a c => f_input a = f_input c /\ same_progress a c));
        [exact Hac|].
      intros i a' c' _ Hac'. apply forward_cell_deriv; assumption. }
  destruct H as [_ (Ha & _ & Hc)]. split; assumption.
Qed.

End ForwardExtras.

(** * Further properties of the gradient and of the curvature product *)

Section BackwardExtras.
Context {num : Type} {SN : Scalar num}.
Context {LState Jac WParams : Type}.

Variable self : @HessianRNN num LState Jac WParams.
Local Abbreviation b := (base self).

Lemma length_calc_grad_cell (W_recs : list (option (mat * vec)))
    (s l : nat) (st : gstate) :
  length (g_grad (calc_grad_cell self W_recs s l st)) = length (g_grad st).
Proof.
  unfold calc_grad_cell.
  destruct (nth_error (layers b) l) as [L|]; [|reflexivity].
  destruct (nth_error (nth l (d_activations b) []) s) as [J|];
    [|reflexivity].
  unfold error_of.
  destruct (l =? n_layers b - 1).
  - destruct (deltas_of b L J _ l _ _). simpl. apply length_rec_grad.
  - pose proof (length_ff_error_grad self (g_deltas st) s l
                  (zeros_like2 (nth l (g_deltas st) [])) (g_grad st)) as Hff.
    destruct (ff_error_grad b (g_deltas st) s l _ (g_grad st)) as [err g].
    simpl in Hff.
    destruct (deltas_of b L J _ l _ _). simpl.
    rewrite length_rec_grad. exact Hff.
Qed.

(** X11.  The gradient has one entry per parameter, whatever the offset
    table, the caches and the collaborators are. *)
Theorem calc_grad_length :
  length (calc_grad self) = length (W b).
Proof.
  unfold calc_grad, vdiv. rewrite length_map.
  unfold calc_grad_loops, for_range_down.
  apply (fold_left_inv (fun st => length (g_grad st) = length (W b))).
  - unfold calc_grad_init, zeros_like. simpl. apply length_map.
  - intros st s _ Hst.
    apply (fold_left_inv (fun st => length (g_grad st) = length (W b)));
      [exact Hst|].
    intros st' l _ Hst'. rewrite length_calc_grad_cell. exact Hst'.
Qed.

Lemma nth_error_slice_upd_outside (f : num -> num -> num) (v : @vec num)
    (lo hi : nat) (x : vec) (k : nat) :
  k < lo \/ hi <= k ->
  nth_error (slice_upd f v lo hi x) k = nth_error v k.
Proof.
  intros Hk. rewrite nth_error_slice_upd.
  replace ((lo <=? k) && (k <? hi)) with false; [reflexivity|].
  symmetry. apply andb_false_iff.
  destruct Hk; [left; apply Nat.leb_gt|right; apply Nat.ltb_ge]; lia.
Qed.

Section Outside.
Variable k : nat.
Hypothesis ordered :
  forall key c, dict_get (offsets b) key = Some c -> wf_cuts c.
Hypothesis outside : outside_blocks (offsets b) k.

Lemma outside_entry (key : conn) (o w e : nat) :
  dict_get (offsets b) key = Some (o, w, e) ->
  o <= w <= e /\ (k < o \/ e <= k).
Proof.
  intros E. pose proof (ordered _ _ E) as Hwf. simpl in Hwf.
  pose proof (outside _ _ E) as Hout. simpl in Hout.
  split; [exact Hwf|].
  apply andb_false_iff in Hout.
  destruct Hout as [H|H];
    [left; apply Nat.leb_gt in H|right; apply Nat.ltb_ge in H]; lia.
Qed.

Lemma ff_error_grad_outside (deltas : list mat) (s l : nat) (err0 : mat)
    (grad : vec) :
  nth_error (snd (ff_error_grad b deltas s l err0 grad)) k =
  nth_error grad k.
Proof.
  unfold ff_error_grad.
  apply (fold_left_inv
           (fun eg : mat * vec => nth_error (snd eg) k = nth_error grad k));
    [reflexivity|].
  intros [err g] post _ Hg. simpl in Hg.
  destruct (dict_get (offsets b) (l, post)) as [[[o w] e]|] eqn:E;
    [|exact Hg].
  destruct (outside_entry _ _ _ _ E) as [Hwf Hk].
  simpl. unfold slice_add.
  rewrite !nth_error_slice_upd_outside by lia. exact Hg.
Qed.

Lemma rec_grad_outside (s l : nat) (delta : mat) (grad : vec) :
  nth_error (rec_grad self s l delta grad) k = nth_error grad k.
Proof.
  unfold rec_grad.
  destruct (nth l (rec_layers self) false); [|reflexivity].
  destruct (dict_get (offsets b) (l, l)) as [[[o w] e]|] eqn:E;
    [|reflexivity].
  destruct (outside_entry _ _ _ _ E) as [Hwf Hk].
  destruct (0 <? s); unfold slice_add, slice_set;
    apply nth_error_slice_upd_outside; lia.
Qed.

(** X12.  calc_grad writes inside the blocks of the offset table only: an
    entry of the gradient that lies in no block is the zero the buffer
    started with, divided by the batch size like every entry. *)
Theorem calc_grad_outside_blocks :
  nth_error (calc_grad self) k =
  nth_error (vdiv (zeros_like (W b)) (shape0 (inputs b))) k.
Proof.
  unfold calc_grad, vdiv. rewrite !nth_error_map. f_equal.
  unfold calc_grad_loops, for_range_down.
  apply (fold_left_inv
           (fun st => nth_error (g_grad st) k =
                      nth_error (zeros_like (W b)) k));
    [reflexivity|].
  intros st s _ Hst.
  apply (fold_left_inv
           (fun st => nth_error (g_grad st) k =
                      nth_error (zeros_like (W b)) k));
    [exact Hst|].
  intros st' l _ Hst'. rewrite <- Hst'. unfold calc_grad_cell.
  destruct (nth_error (layers b) l) as [L|]; [|reflexivity].
  destruct (nth_error (nth l (d_activations b) []) s) as [J|];
    [|reflexivity].
  unfold error_of.
  destruct (l =? n_layers b - 1).
  - destruct (deltas_of b L J _ l _ _). simpl. apply rec_grad_outside.
  - pose proof (ff_error_grad_outside (g_deltas st') s l
                  (zeros_like2 (nth l (g_deltas st') [])) (g_grad st'))
      as Hff.
    destruct (ff_error_grad b (g_deltas st') s l _ (g_grad st'))
      as [err g]. simpl in Hff.
    destruct (deltas_of b L J _ l _ _). simpl.
    rewrite rec_grad_outside. exact Hff.
Qed.

Lemma R_backward_outside (damping : num) (R : rfstate) (Gv0 : vec) :
  nth_error (b_Gv (R_backward self damping R Gv0)) k = nth_error Gv0 k.
Proof.
  unfold R_backward, for_range_down.
  apply (fold_left_inv
           (fun st => nth_error (b_Gv st) k = nth_error Gv0 k));
    [reflexivity|].
  intros st s _ Hst.
  apply (fold_left_inv
           (fun st => nth_error (b_Gv st) k = nth_error Gv0 k));
    [exact Hst|].
  intros st' l _ Hst'. rewrite <- Hst'. unfold R_backward_cell.
  destruct (nth_error (layers b) l) as [L|]; [|reflexivity].
  destruct (nth_error (nth l (d_activations b) []) s) as [J|];
    [|reflexivity].
  unfold R_error_of.
  destruct (l =? n_layers b - 1).
  - destruct (deltas_of b L J _ l _ _). simpl. apply rec_grad_outside.
  - pose proof (ff_error_grad_outside (R_deltas st') s l
                  (zeros_like2 (col (nth l (activations b) []) s))
                  (b_Gv st')) as Hff.
    destruct (ff_error_grad b (R_deltas st') s l _ (b_Gv st'))
      as [err g]. simpl in Hff.
    destruct (deltas_of b L J _ l _ _). simpl.
    rewrite rec_grad_outside. exact Hff.
Qed.

(** X13.  So does calc_G: at an index that lies in no block, the product
    is the Tikhonov term alone, damping * v added to the zero the buffer
    started with. *)
Theorem calc_G_outside_blocks (h : store) (v : loc) (damping : num) :
  v < next h ->
  nth_error (returned (calc_G self h v damping None)) k =
  nth_error
    (vadd_ip (vdiv (zeros (length (W b))) (shape0 (inputs b)))
             (vscale damping (load h v))) k.
Proof.
  intros Hv. destruct (calc_G_fresh self h v damping Hv) as [_ ->].
  unfold calc_G_value, vadd_ip, vdiv.
  rewrite !nth_error_zip_ip, !nth_error_map, R_backward_outside.
  reflexivity.
Qed.

End Outside.

(** X14.  Without an output buffer calc_G returns a newly allocated array
    of the size of the parameter vector and writes nowhere else: every
    array that existed before the call, v among them, is as it was. *)
Theorem calc_G_allocates (h : store) (v : loc) (damping : num) :
  snd (calc_G self h v damping None) = next h /\
  next (fst (calc_G self h v damping None)) = S (next h) /\
  (forall l, l < next h ->
     load (fst (calc_G self h v damping None)) l = load h l) /\
  length (returned (calc_G self h v damping None)) = length (W b).
Proof.
  split; [reflexivity|]. split; [reflexivity|]. split.
  - intros l Hl.
    assert (E : (l =? next h) = false) by (apply Nat.eqb_neq; lia).
    unfold calc_G, alloc, write, load. simpl. rewrite !E. reflexivity.
  - unfold returned, calc_G, alloc, write, load. simpl.
    rewrite !Nat.eqb_refl.
    unfold vadd_ip, vdiv. rewrite length_zip_ip, length_map.
    rewrite length_R_backward. unfold zeros. apply repeat_length.
Qed.

(** X15.  Passing v itself as the output buffer destroys the direction:
    the buffer is zeroed before v is read, so the sweeps run on the zero
    vector and the damping term is added to the buffer's own contents; the
    result depends on the length of v only. *)
Theorem calc_G_output_is_v (h : store) (v : loc) (damping : num) :
  let z := zeros (length (load h v)) in
  let g := vdiv (b_Gv (R_backward self damping (R_forward self z) z))
                (shape0 (inputs b)) in
  snd (calc_G self h v damping (Some v)) = v /\
  returned (calc_G self h v damping (Some v)) =
    vadd_ip g (vscale damping g) /\
  forall h' : store,
    length (load h' v) = length (load h v) ->
    returned (calc_G self h' v damping (Some v)) =
    returned (calc_G self h v damping (Some v)).
Proof.
  assert (Hval : forall h0 : store,
            returned (calc_G self h0 v damping (Some v)) =
            vadd_ip
              (vdiv (b_Gv (R_backward self damping
                             (R_forward self (zeros (length (load h0 v))))
                             (zeros (length (load h0 v)))))
                    (shape0 (inputs b)))
              (vscale damping
                 (vdiv (b_Gv (R_backward self damping
                                (R_forward self
                                   (zeros (length (load h0 v))))
                                (zeros (length (load h0 v)))))
                       (shape0 (inputs b))))).
  { intros h0. unfold returned, calc_G, write, load. simpl.
    rewrite !Nat.eqb_refl, zeros_like_length. reflexivity. }
  intros z g. split; [reflexivity|]. split; [apply Hval|].
  intros h' Hlen. rewrite !Hval, Hlen. reflexivity.
Qed.

(** The input layer takes no R_input from other layers (lines 264-270 run
    for l > 0 only). *)
Lemma R_ff_input_other (v : vec) (R_act : list (option mat)) (s l j : nat)
    (Rin : list tensor3) :
  j <> l \/ l = 0 ->
  nth j (R_ff_input b v R_act s l Rin) [] = nth j Rin [].
Proof.
  intros Hj. unfold R_ff_input.
  destruct (0 <? l) eqn:El; [|reflexivity].
  apply Nat.ltb_lt in El.
  assert (Hne : j <> l) by (destruct Hj; lia).
  apply (fold_left_inv (fun Rin' => nth j Rin' [] = nth j Rin []));
    [reflexivity|].
  intros Rin' pre _ H.
  destruct (the_weights (get_weights b v (pre, l))) as [vw vb].
  destruct (the_weights (get_weights b (W b) (pre, l))) as [Ww wb].
  unfold add_col. rewrite !nth_upd_other by congruence. exact H.
Qed.

Lemma R_rec_input_other (v_recs W_recs : list (option (mat * vec)))
    (R_act : list (option mat)) (s l j : nat) (Rin : list tensor3) :
  j <> l \/ nth l (rec_layers self) false = false ->
  nth j (R_rec_input self v_recs W_recs R_act s l Rin) [] = nth j Rin [].
Proof.
  intros Hj. unfold R_rec_input.
  destruct (nth l (rec_layers self) false) eqn:Er; [|reflexivity].
  assert (Hne : j <> l) by (destruct Hj; congruence).
  destruct (s =? 0); unfold add_col, add_col_row;
    apply nth_upd_other; congruence.
Qed.

(** X16.  When the input layer is not recurrent nothing perturbs its
    input: its R_input is zero at every timestep of the R forward pass,
    whatever the direction v is. *)
Theorem R_forward_input_layer_zero (v : vec) :
  1 <= n_layers b ->
  nth 0 (rec_layers self) false = false ->
  nth 0 (R_inputs (R_forward self v)) [] =
    zeros_like3 (nth 0 (activations b) []).
Proof.
  intros Hn Hrec. unfold R_forward, for_range.
  apply (fold_left_inv
           (fun st => nth 0 (R_inputs st) [] =
                      zeros_like3 (nth 0 (activations b) []))).
  - simpl. destruct (n_layers b) as [|n]; [lia|]. reflexivity.
  - intros st s _ Hst. unfold R_forward_step. simpl.
    unfold for_range.
    apply (fold_left_inv
             (fun st => nth 0 (R_inputs st) [] =
                        zeros_like3 (nth 0 (activations b) [])));
      [exact Hst|].
    intros st' l _ Hst'. rewrite <- Hst'. unfold R_forward_cell.
    destruct (nth_error (layers b) l) as [L|]; [|reflexivity].
    destruct (nth_error (nth l (d_activations b) []) s) as [J|];
      [|reflexivity].
    assert (Hin : nth 0 (R_rec_input self (W_recs_of b v)
                           (W_recs_of b (W b)) (R_activations st') s l
                           (R_ff_input b v (R_activations st') s l
                              (R_inputs st'))) [] =
                  nth 0 (R_inputs st') []).
    { destruct (Nat.eq_dec l 0) as [->|Hl].
      - rewrite R_rec_input_other by (right; exact Hrec).
        apply R_ff_input_other. right. reflexivity.
      - rewrite R_rec_input_other by (left; lia).
        apply R_ff_input_other. left. lia. }
    destruct (negb (stateful L)); simpl; exact Hin.
Qed.

End BackwardExtras.

Section DampingExtras.
Context {num : Type} {SN : Scalar num} {SL : ScalarLaws num}.
Context {LState Jac WParams : Type}.

Lemma struc_damp_zero_damping
    (self : @HessianRNN num LState Jac WParams) (R : rfstate) (J : Jac)
    (s l : nat) (X : mat) :
  (forall (J : Jac) (M : mat) (t : bool),
     J_dot (base self) J (zeros_like2 M) t =
     zeros_like2 (J_dot (base self) J (zeros_like2 M) t)) ->
  struc_damp self nzero R J s l X = X.
Proof.
  intros HJ. unfold struc_damp.
  rewrite nmul_0_l, mscale_zero, HJ. apply madd_ip_zero.
Qed.

(** X17.  At damping 0 the structural damping is off: the product
    calc_G(v, 0) is the same whatever the struc_damping coefficient of the
    network is. *)
Theorem calc_G_zero_damping_ignores_struc_damping
    (self : @HessianRNN num LState Jac WParams) (sd : num)
    (h : store) (v : loc) :
  (forall (J : Jac) (M : mat) (t : bool),
     J_dot (base self) J (zeros_like2 M) t =
     zeros_like2 (J_dot (base self) J (zeros_like2 M) t)) ->
  v < next h ->
  returned (calc_G (with_struc_damping self sd) h v nzero None) =
  returned (calc_G self h v nzero None).
Proof.
  intros HJ Hv.
  destruct (calc_G_fresh self h v nzero Hv) as [_ ->].
  destruct (calc_G_fresh (with_struc_damping self sd) h v nzero Hv)
    as [_ ->].
  unfold calc_G_value.
  change (base (with_struc_damping self sd)) with (base self).
  change (R_forward (with_struc_damping self sd) (load h v))
    with (R_forward self (load h v)).
  f_equal. f_equal. f_equal.
  unfold R_backward, for_range_down.
  change (base (with_struc_damping self sd)) with (base self).
  apply fold_left_eq. intros st s.
  apply fold_left_eq. intros st' l.
  unfold R_backward_cell.
  change (base (with_struc_damping self sd)) with (base self).
  destruct (nth_error (layers (base self)) l) as [L|]; [|reflexivity].
  destruct (nth_error (nth l (d_activations (base self)) []) s) as [J|];
    [|reflexivity].
  change (R_error_of (with_struc_damping self sd))
    with (R_error_of self).
  destruct (R_error_of self _ _ s l st') as [err Gv].
  destruct (deltas_of (base self) L J err l _ _) as [deltas states].
  rewrite (struc_damp_zero_damping self) by exact HJ.
  rewrite (struc_damp_zero_damping (with_struc_damping self sd))
    by exact HJ.
  reflexivity.
Qed.

End DampingExtras.

(** * The feedforward part of the two backward sweeps *)

Section FeedforwardBlock.
Context {num : Type} {SN : Scalar num}.
Context {LState Jac WParams : Type}.

Variable b : @HessianFF num LState Jac WParams.
Variables (l p0 o0 we0 be0 : nat).
Hypothesis table : table_ok (offsets b).
Hypothesis entry : dict_get (offsets b) (l, p0) = Some (o0, we0, be0).

(* one step of the loop over conns[l], lines 183-196 *)
Lemma ff_step_other (deltas : list mat) (s : nat) (posts : list nat)
    (err0 : mat) (grad : vec) (o e : nat) :
  ~ In p0 posts -> o0 <= o -> e <= be0 ->
  slice
    (snd (fold_left
            (fun '(err, grad) post =>
               let c_error :=
                 dot (nth post deltas [])
                     (transpose
                        (fst (the_weights (get_weights b (W b) (l, post)))))
               in
               let err := madd_ip err c_error in
               match dict_get (offsets b) (l, post) with
               | None => (err, grad)
               | Some (offset, W_end, b_end) =>
                   let grad :=
                     slice_add grad offset W_end
                       (outer_sum b (os_activation b l s)
                          (nth post deltas [])) in
                   let grad :=
                     slice_add grad W_end b_end
                       (colsum (nth post deltas [])) in
                   (err, grad)
               end)
            posts (err0, grad))) o e =
  slice grad o e.
Proof.
  intros Hnot Ho He.
  apply (fold_left_inv
           (fun eg : mat * vec => slice (snd eg) o e = slice grad o e));
    [reflexivity|].
  intros [err g] post Hpost Hg. simpl in Hg.
  destruct (dict_get (offsets b) (l, post)) as [[[o' w'] e']|] eqn:E;
    [|exact Hg].
  simpl. rewrite <- Hg.
  pose proof (proj1 table _ _ E) as Hwf. simpl in Hwf.
  pose proof (proj1 table _ _ entry) as Hwf0. simpl in Hwf0.
  assert (Hk : (l, post) <> (l, p0)).
  { intros Heq. inversion Heq; subst post. exact (Hnot Hpost). }
  pose proof (proj2 table _ _ _ _ Hk E entry) as Hap. simpl in Hap.
  unfold slice_add.
  rewrite !slice_slice_upd_other; [reflexivity| |]; lia.
Qed.


End FeedforwardBlock.

(** * The further properties on concrete networks *)

Lemma demo_base_fresh (kw : option (@vec Qc)) (b0 : HessianFF) :
  Demo.setup [1; 2; 1] kw = inr b0 ->
  forall l c, ~ In ((l, l), c) (offsets (Demo.ff_compute_offsets b0)).
Proof.
  intros Hb0 l c. unfold Demo.setup in Hb0. inversion Hb0; subst b0.
  simpl. intros [H|[H|[]]]; inversion H; lia.
Defined.

Lemma init_default_needs_two_layers_witness :
  Demo.construct [3] None None =
  ([], inl (ValueError "Must define recurrence for each layer")).
Proof.
  apply (init_default_needs_two_layers Demo.ff_compute_offsets Demo.setup
           (fun kw => kw) [3] (Demo.q 0) tt None).
  vm_compute. lia.
Defined.

Lemma init_without_recurrence_witness :
  exists self,
    Demo.construct [1; 2; 1] (Some [false; false; false]) None =
      ([Call_super_init], inr self) /\
    rec_layers self = [false; false; false].
Proof.
  destruct (Demo.setup [1; 2; 1] None) as [e|b0] eqn:E;
    [discriminate|].
  destruct (init_without_recurrence Demo.ff_compute_offsets Demo.setup
              (fun kw => kw) [1; 2; 1] (Demo.q 0) [false; false; false]
              tt None b0 eq_refl eq_refl E) as (self & H1 & _ & _ & H4).
  exists self. split; [exact H1|exact H4].
Defined.

Lemma compute_offsets_partition_fresh_witness :
  exists self,
    snd (Demo.construct [1; 2; 1] None None) = inr self /\
    partitions (offsets (base self)) (length (W (base self))).
Proof.
  destruct (Demo.setup [1; 2; 1] None) as [e|b0] eqn:E;
    [discriminate|].
  pose proof (demo_base_fresh None b0 E) as Hfresh.
  assert (Hpart : partitions (offsets (Demo.ff_compute_offsets b0))
                    (length (W (Demo.ff_compute_offsets b0)))).
  { unfold Demo.setup in E. inversion E; subst b0.
    intros k. do 7 (destruct k as [|k]; [reflexivity|]). reflexivity. }
  assert (Hinit : forall shapes,
            length (init_weights (Demo.ff_compute_offsets b0) shapes tt) =
            sum_sizes shapes).
  { unfold Demo.setup in E. inversion E; subst b0.
    intros shapes. simpl. unfold zeros. apply repeat_length. }
  destruct (snd (Demo.construct [1; 2; 1] None None)) as [e|self] eqn:Es;
    [discriminate|].
  exists self. split; [reflexivity|].
  exact (proj1 (compute_offsets_partition_fresh Demo.ff_compute_offsets
                  Demo.setup (fun kw => kw) [1; 2; 1] (Demo.q 0) None tt
                  None b0 self E eq_refl Hpart Hfresh Hinit Es)).
Defined.

Lemma loaded_weights_recurrent_blocks_outside_witness :
  exists self,
    snd (Demo.construct [1; 2; 1] None (Some (zeros 13))) = inr self /\
    exists o we be,
      dict_get (offsets (base self)) (1, 1) = Some (o, we, be) /\
      length (W (base self)) <= o.
Proof.
  destruct (Demo.setup [1; 2; 1] (Some (zeros 13))) as [e|b0] eqn:E;
    [discriminate|].
  pose proof (demo_base_fresh _ b0 E) as Hfresh.
  destruct (snd (Demo.construct [1; 2; 1] None (Some (zeros 13))))
    as [e|self] eqn:Es; [discriminate|].
  exists self. split; [reflexivity|].
  destruct (loaded_weights_recurrent_blocks_outside Demo.ff_compute_offsets
              Demo.setup (fun kw => kw) [1; 2; 1] (Demo.q 0) None tt
              (Some (zeros 13)) (zeros 13) b0 self E eq_refl Hfresh Es)
    as [_ H].
  apply (H 1).
  - vm_compute in Es. inversion Es. vm_compute. lia.
  - vm_compute in Es. inversion Es. reflexivity.
Defined.

Lemma rec_entries_iff_flagged_witness :
  exists self,
    snd (Demo.construct [1; 2; 1] None None) = inr self /\
    dict_get (offsets (base self)) (1, 1) <> None.
Proof.
  destruct (Demo.setup [1; 2; 1] None) as [e|b0] eqn:E;
    [discriminate|].
  pose proof (demo_base_fresh None b0 E) as Hfresh.
  destruct (snd (Demo.construct [1; 2; 1] None None)) as [e|self] eqn:Es;
    [discriminate|].
  exists self. split; [reflexivity|].
  apply (proj1 (rec_entries_iff_flagged Demo.ff_compute_offsets Demo.setup
                  (fun kw => kw) [1; 2; 1] (Demo.q 0) None tt None b0 self
                  E Hfresh Es) 1).
  vm_compute in Es. inversion Es. split; [vm_compute; lia|reflexivity].
Defined.

Lemma forward_activation_shapes_witness :
  exists st,
    forward (PState := unit) Demo.rnnR Demo.no_state
      (InArr (A2 [[Demo.q 1]; [Demo.q 1]])) Demo.wR false = inr st /\
    acts_shaped 1 2 2 (f_acts st).
Proof.
  exact (forward_activation_shapes (PState := unit) Demo.rnnR Demo.wR
           Demo.no_state (InArr (A2 [[Demo.q 1]; [Demo.q 1]]))
           (InArr (A3 Demo.xR)) false eq_refl).
Defined.

Lemma forward_derivative_counts_witness :
  exists st,
    forward (PState := unit) Demo.rnnR Demo.no_state (InArr (A3 Demo.xR))
      Demo.wR true = inr st /\
    length (nth 1 (f_dacts st) []) = 2.
Proof.
  destruct (proj1 (forward_derivative_counts (PState := unit) Demo.rnnR
                     Demo.wR Demo.no_state (InArr (A3 Demo.xR))
                     (InArr (A3 Demo.xR)) eq_refl eq_refl))
    as (st & Hf & _ & Hc).
  exists st. split; [exact Hf|]. apply (Hc 1). vm_compute. lia.
Defined.

Lemma plant_receives_previous_output_witness :
  exists st,
    forward Demo.rnnR Demo.no_state (InPlant Demo.plant1 5) Demo.wR false =
      inr st /\
    nth_error (f_calls st) 1 = Some (col (last (f_acts st) []) 0).
Proof.
  assert (Hs : shape (base Demo.rnnR) <> []) by discriminate.
  destruct (plant_receives_previous_output Demo.rnnR Demo.wR Demo.no_state
              Demo.plant1 5 false Hs eq_refl) as (st & Hf & _ & Hc).
  exists st. split; [exact Hf|]. apply (Hc 1); vm_compute; lia.
Defined.

Lemma forward_causal_witness :
  exists st st',
    forward (PState := unit) Demo.rnnR Demo.no_state (InArr (A3 Demo.xR))
      Demo.wR false = inr st /\
    forward (PState := unit) Demo.rnnR Demo.no_state (InArr (A3 Demo.xR'))
      Demo.wR false = inr st' /\
    col (nth 1 (f_acts st) []) 0 = col (nth 1 (f_acts st') []) 0.
Proof.
  assert (Hcols : forall k, k <= 0 -> col Demo.xR k = col Demo.xR' k).
  { intros k Hk. replace k with 0 by lia. reflexivity. }
  destruct (forward_causal (PState := unit) Demo.rnnR Demo.wR Demo.no_state
              Demo.xR Demo.xR' false 0 eq_refl eq_refl Hcols)
    as (st & st' & Hf & Hf' & H).
  exists st, st'. split; [exact Hf|]. split; [exact Hf'|].
  apply (H 1 0). lia.
Defined.

Lemma forward_deriv_same_activations_witness :
  exists st st',
    forward (PState := unit) Demo.rnnR Demo.no_state (InArr (A3 Demo.xR))
      Demo.wR true = inr st /\
    forward (PState := unit) Demo.rnnR Demo.no_state (InArr (A3 Demo.xR))
      Demo.wR false = inr st' /\
    f_acts st = f_acts st'.
Proof.
  eexists. eexists. split; [reflexivity|]. split; [reflexivity|].
  refine (proj1 (forward_deriv_same_activations (PState := unit) Demo.rnnR
                   Demo.wR Demo.no_state (InArr (A3 Demo.xR)) _ _ _
                   eq_refl eq_refl)).
  intros L ls m HL. simpl in HL.
  destruct HL as [<-|[<-|[]]]; reflexivity.
Defined.

Lemma demo_loaded_ordered :
  forall key c,
    dict_get (offsets (base Demo.rnnL)) key = Some c -> wf_cuts c.
Proof.
  intros key c H. simpl in H. unfold Demo.dL in H. simpl in H.
  destruct (conn_eqb key (0, 1)); [inversion H; simpl; lia|].
  destruct (conn_eqb key (1, 1)); [inversion H; simpl; lia|discriminate].
Defined.

Lemma demo_loaded_outside :
  outside_blocks (offsets (base Demo.rnnL)) 2.
Proof.
  intros key c H. simpl in H. unfold Demo.dL in H. simpl in H.
  destruct (conn_eqb key (0, 1)); [inversion H; reflexivity|].
  destruct (conn_eqb key (1, 1)); [inversion H; reflexivity|discriminate].
Defined.

Lemma calc_grad_outside_blocks_witness :
  nth_error (calc_grad Demo.rnnL) 2 =
  nth_error (vdiv (zeros_like (W (base Demo.rnnL)))
                  (shape0 (inputs (base Demo.rnnL)))) 2.
Proof.
  exact (calc_grad_outside_blocks Demo.rnnL 2 demo_loaded_ordered
           demo_loaded_outside).
Defined.

Lemma calc_G_outside_blocks_witness :
  nth_error (returned (calc_G Demo.rnnL Demo.h4 0 (Demo.q 2) None)) 2 =
  nth_error
    (vadd_ip (vdiv (zeros (length (W (base Demo.rnnL))))
                   (shape0 (inputs (base Demo.rnnL))))
             (vscale (Demo.q 2) (load Demo.h4 0))) 2.
Proof.
  assert (Hv : 0 < next Demo.h4) by (vm_compute; lia).
  exact (calc_G_outside_blocks Demo.rnnL 2 demo_loaded_ordered
           demo_loaded_outside Demo.h4 0 (Demo.q 2) Hv).
Defined.

Lemma calc_G_allocates_witness :
  load (fst (calc_G (Demo.rnn2 (Demo.q 1)) Demo.h2 0 (Demo.q 1) None)) 0 =
  load Demo.h2 0.
Proof.
  assert (Hv : 0 < next Demo.h2) by (vm_compute; lia).
  exact (proj1 (proj2 (proj2 (calc_G_allocates (Demo.rnn2 (Demo.q 1))
                                Demo.h2 0 (Demo.q 1)))) 0 Hv).
Defined.

Lemma calc_G_output_is_v_witness :
  returned (calc_G (Demo.rnn2 (Demo.q 1)) Demo.h2_alt 0 (Demo.q 1) (Some 0))
  = returned (calc_G (Demo.rnn2 (Demo.q 1)) Demo.h2 0 (Demo.q 1) (Some 0)).
Proof.
  exact (proj2 (proj2 (calc_G_output_is_v (Demo.rnn2 (Demo.q 1)) Demo.h2 0
                         (Demo.q 1))) Demo.h2_alt eq_refl).
Defined.

Lemma R_forward_input_layer_zero_witness :
  nth 0 (R_inputs (R_forward Demo.rnnR (load Demo.h4 0))) [] =
  zeros_like3 (nth 0 (activations (base Demo.rnnR)) []).
Proof.
  assert (Hn : 1 <= n_layers (base Demo.rnnR)) by (vm_compute; lia).
  exact (R_forward_input_layer_zero Demo.rnnR (load Demo.h4 0) Hn eq_refl).
Defined.

Lemma calc_G_zero_damping_witness :
  returned (calc_G (with_struc_damping (Demo.rnn2 (Demo.q 0)) (Demo.q 3))
              Demo.h2 0 nzero None) =
  returned (calc_G (Demo.rnn2 (Demo.q 0)) Demo.h2 0 nzero None).
Proof.
  assert (Hv : 0 < next Demo.h2) by (vm_compute; lia).
  refine (calc_G_zero_damping_ignores_struc_damping
            (Demo.rnn2 (Demo.q 0)) (Demo.q 3) Demo.h2 0 _ Hv).
  intros J M t. apply mmul_zero.
Defined.

